(** * speedtest: the load and reachability engines and the phased HTTP probe

    A shallow embedding of
      - [PromiseEngine], [LoadNetworkEngine] and [ReachabilityEngine]
        (the two engine modules), and
      - [nodeFetch], [NodeResponse] and [NodePerformanceResourceTiming]
        (src/utils/nodeRequest.js),
    followed by the properties of the specification that concern them.

    Conventions.  JavaScript is single threaded: a method call, a promise
    reaction and a timer callback each run to completion, so every engine
    is a state record and every such run is one transition on it.  What
    the transport does (whether a lookup fails, which chunks arrive, when
    a promise settles) is an input of the model.  Numbers are [Z]: the
    quantities of the source are byte counts and clock readings, and
    [None] stands for [undefined] (and for [NaN] in derived arithmetic).
    What the JavaScript runtime fixes (the length of the longest string,
    the printing of an integer above [2^53]) is a parameter, [Runtime].
    A chunk of a response body carries its number of bytes and the text
    it decodes to, which the source uses separately. *)

From stdpp Require Import base strings list gmap pretty.
From Stdlib Require Import ZArith Lia Ascii.

Local Open Scope string_scope.
Local Open Scope list_scope.

(** Values thrown or used as rejection reasons.  [SystemError] is the
    error object of a failed system call as Node reports it
    ([code], [syscall]): a failed [dns.lookup] is
    [SystemError "ENOTFOUND" "getaddrinfo"], a refused connection is
    [SystemError "ECONNREFUSED" "connect"]. *)
Inductive JsError :=
| Error (message : string)
| TypeError (message : string)
| RangeError (message : string)
| ReferenceError (message : string)
| SystemError (code syscall : string).

(** JavaScript truthiness of the values the engines test. *)
Definition truthy_string (o : option string) : bool :=
  match o with
  | Some s => negb (String.eqb s "")
  | None => false
  end.

Definition truthy_number (o : option Z) : bool :=
  match o with
  | Some n => negb (n =? 0)%Z
  | None => false
  end.

(** What the program takes from the JavaScript runtime: the length of
    the longest string it builds (a longer one throws a [RangeError]),
    and how it prints an integer of magnitude above [2^53] (in rounded
    decimal or exponent form; up to [2^53] every integer is printed in
    full decimal). *)
Record Runtime := mkRuntime {
  maxStringLength : Z;
  printLarge : Z → string
}.

(** A number converted to a string. *)
Definition numberToString (rt : Runtime) (n : Z) : string :=
  if (Z.abs n <=? 9007199254740992)%Z then pretty n else printLarge rt n.

(** A string or a number inside a template literal. *)
Definition template_string (o : option string) : string :=
  default "undefined" o.

Definition template_number (rt : Runtime) (o : option Z) : string :=
  default "undefined" (numberToString rt <$> o).

(** A runtime for the concrete examples: the string limit of V8 on
    64-bit platforms ([2^29 - 24]); the examples have no integer above
    [2^53], so its printer of large integers is never called. *)
Definition runtime0 : Runtime := mkRuntime 536870888 (λ n, pretty n).

(** ** PromiseEngine *)

Module PromiseEngine.

(** The promise objects the engine creates in [#next].  [_cancel] is the
    property [#cancelCurrent] writes on them; [settled] is the state of
    the operation the promise was derived from, kept by the runtime. *)
Record Promise := mkPromise { _cancel : bool; settled : bool }.

(** What an observer of the loop sees: the operation of promise [h] is
    started (a call of [promiseFn]) or has settled. *)
Inductive Event := Started (h : nat) | Settled (h : nat).

(** The private fields [#running] and [#currentPromise]; promises are
    named by their allocation index in [heap]; [trace] is the history. *)
Record t := mk {
  running : bool;
  currentPromise : option nat;
  heap : list Promise;
  trace : list Event
}.

(** Field initialisers: [#running = false], [#currentPromise = undefined]. *)
Definition fresh : t := mk false None [] [].

Definition setRunning (r : bool) (s : t) : t :=
  if negb (Bool.eqb r (running s))
  then mk r (currentPromise s) (heap s) (trace s)
  else s.

(** [#next]: call [promiseFn], keep the derived promise as the current one. *)
Definition next (s : t) : t :=
  let h := length (heap s) in
  mk (running s) (Some h) (heap s ++ [mkPromise false false])
     (trace s ++ [Started h]).

Definition cancelCurrent (s : t) : t :=
  match currentPromise s with
  | Some h =>
      match heap s !! h with
      | Some p =>
          mk (running s) (currentPromise s)
             (<[h := mkPromise true (settled p)]> (heap s)) (trace s)
      | None => s
      end
  | None => s
  end.

Definition pause (s : t) : t := setRunning false (cancelCurrent s).

Definition stop (s : t) : t := pause s.

Definition play (s : t) : t :=
  if negb (running s) then next (setRunning true s) else s.

(** [new PromiseEngine(promiseFn)]; [promiseFn] is [None] when the
    argument is missing. *)
Definition construct {Op : Type} (promiseFn : option Op) : string + t :=
  match promiseFn with
  | None => inl "Missing operation to perform"
  | Some _ => inr (play fresh)
  end.

(** The operation behind promise [h] settles.  A promise settles once;
    on fulfilment the reaction registered in [#next] runs:
    [!curPromise._cancel && this.#next()].  On rejection it is skipped. *)
Definition settle (h : nat) (fulfilled : bool) (s : t) : t :=
  match heap s !! h with
  | Some p =>
      if settled p then s
      else
        let s' := mk (running s) (currentPromise s)
                     (<[h := mkPromise (_cancel p) true]> (heap s))
                     (trace s ++ [Settled h]) in
        if fulfilled && negb (_cancel p) then next s' else s'
  | None => s
  end.

(** What can happen to an engine after its construction. *)
Inductive Input :=
| Play | Pause | Stop
| Resolve (h : nat) | Reject (h : nat).

Definition step (s : t) (i : Input) : t :=
  match i with
  | Play => play s
  | Pause => pause s
  | Stop => stop s
  | Resolve h => settle h true s
  | Reject h => settle h false s
  end.

Definition run (s : t) (ins : list Input) : t := foldl step s ins.

(** The engine right after [new PromiseEngine(promiseFn)]. *)
Definition started : t := play fresh.

Definition settlement (hb : nat * bool) : Input :=
  if hb.2 then Resolve hb.1 else Reject hb.1.

Definition is_start (e : Event) : bool :=
  match e with Started _ => true | Settled _ => false end.

(** The calls of [promiseFn] made so far. *)
Definition starts (s : t) : list Event := List.filter is_start (trace s).

Definition no_inflight (s : t) : bool := forallb settled (heap s).

(** Iteration [n+1] starts only after iteration [n] has settled. *)
Definition strict_non_overlap (tr : list Event) : Prop :=
  ∀ n pre post, tr = pre ++ Started (S n) :: post → In (Settled n) pre.

(** [play()] is never called on an idle engine that still has an
    operation in flight. *)
Fixpoint play_waits (s : t) (ins : list Input) : bool :=
  match ins with
  | [] => true
  | i :: rest =>
      match i with
      | Play => running s || no_inflight s
      | _ => true
      end && play_waits (step s i) rest
  end.

(** The invariant of an engine on which [play()] waits: every promise
    but the newest has settled, settlements are on the trace, and the
    trace does not overlap. *)
Record sequential (s : t) : Prop := {
  seq_older : ∀ h p, heap s !! h = Some p → S h < length (heap s) → settled p = true;
  seq_logged : ∀ h p, heap s !! h = Some p → settled p = true → In (Settled h) (trace s);
  seq_trace : strict_non_overlap (trace s)
}.

(** Only the current promise of a running engine can be in flight
    without being cancelled. *)
Definition one_live (s : t) : Prop :=
  ∀ h p, heap s !! h = Some p → settled p = false → _cancel p = false →
         currentPromise s = Some h ∧ running s = true.

(** Every promise in flight is cancelled. *)
Definition all_cancelled (s : t) : Prop :=
  ∀ h p, heap s !! h = Some p → settled p = false → _cancel p = true.

(** Promise [h] is in flight and not cancelled: its fulfilment would
    start the next operation. *)
Definition live (s : t) (h : nat) : Prop :=
  ∃ p, heap s !! h = Some p ∧ settled p = false ∧ _cancel p = false.

(** The inputs other than [pause()] and [stop()]. *)
Definition keeps_running (i : Input) : bool :=
  match i with
  | Pause | Stop => false
  | _ => true
  end.

(** The history of a loop whose first [n] operations were fulfilled. *)
Definition free_run_trace (n : nat) : list Event :=
  flat_map (λ k, [Started k; Settled k]) (seq 0 n) ++ [Started n].

(** An idle engine has cancelled its current promise. *)
Definition idle_cancelled (s : t) : Prop :=
  running s = false →
  ∀ h p, currentPromise s = Some h → heap s !! h = Some p → _cancel p = true.

End PromiseEngine.


(** ** LoadNetworkEngine *)

Module LoadNetworkEngine.

(** [{ apiUrl, chunkSize }]; a missing property is [None]. *)
Record ChannelConfig := mkChannel {
  apiUrl : option string;
  chunkSize : option Z
}.

(** The constructor argument [{ download, upload, localAddress }]. *)
Record Config := mkConfig {
  download : option ChannelConfig;
  upload : option ChannelConfig;
  localAddress : option string
}.

(** The request one iteration of a channel issues: the fetch function
    chosen, the url and the final fetch options. *)
Record Request := mkRequest {
  viaNodeFetch : bool;
  url : string;
  method : option string;
  body : option string;
  bindAddress : option string
}.

(** One element of [#engines]. *)
Record Channel := mkEngine {
  request : Request;
  engine : PromiseEngine.t
}.

(** [Object.entries(qsParams).map(([k, v]) => `${k}=${v}`).join('&')] *)
Definition queryString (qsParams : list (string * string)) : string :=
  String.concat "&" (map (λ kv, kv.1 +:+ "=" +:+ kv.2) qsParams).

(** ['0'.repeat(count)]: a negative count throws, and so does a count
    above the longest string of the runtime. *)
Definition repeat0 (rt : Runtime) (count : Z) : JsError + string :=
  if (count <? 0)%Z
  then inl (RangeError ("Invalid count value: " +:+ numberToString rt count))
  else if (maxStringLength rt <? count)%Z
  then inl (RangeError "Invalid string length")
  else inr (String.concat "" (replicate (Z.to_nat count) "0")).

(** The check of one supplied configuration in the [forEach]. *)
Definition check (cfg : ChannelConfig) (type : string) : option JsError :=
  if negb (truthy_string (apiUrl cfg))
  then Some (Error ("Missing " +:+ type +:+ " apiUrl argument"))
  else if negb (truthy_number (chunkSize cfg))
  then Some (Error ("Missing " +:+ type +:+ " chunkSize argument"))
  else None.

(** The array of pairs, filtered to the supplied ones, checked in order;
    the first failing check throws. *)
Fixpoint checkAll (cfgs : list (option ChannelConfig * string)) : option JsError :=
  match cfgs with
  | [] => None
  | (None, _) :: rest => checkAll rest
  | (Some cfg, type) :: rest =>
      match check cfg type with
      | Some e => Some e
      | None => checkAll rest
      end
  end.

(** The url [promiseFn] builds: [`${apiUrl}?${...}`]. *)
Definition requestUrl (apiUrl : option string) (qsParams : list (string * string))
    : string :=
  template_string apiUrl +:+ "?" +:+ queryString qsParams.

(** [getLoadEngine({ apiUrl, qsParams = {}, fetchOptions = {} })] with
    the [localAddress] of the enclosing constructor.  The constructor of
    [PromiseEngine] calls [promiseFn] once before it returns, so what
    [promiseFn] throws there is thrown by [getLoadEngine]: building the
    url throws when it is longer than the runtime allows. *)
Definition getLoadEngine (rt : Runtime) (localAddress : option string)
    (apiUrl : option string) (qsParams : list (string * string))
    (method body : option string) : JsError + Channel :=
  let isNodeFetch := truthy_string localAddress in
  let req := mkRequest isNodeFetch (requestUrl apiUrl qsParams) method body
               (if isNodeFetch then localAddress else None) in
  if (maxStringLength rt <? Z.of_nat (String.length (requestUrl apiUrl qsParams)))%Z
  then inl (RangeError "Invalid string length")
  else
    match PromiseEngine.construct (Some req) with
    | inl msg => inl (Error msg)
    | inr e => inr (mkEngine req e)
    end.

Definition construct (rt : Runtime) (cfg : Config) : JsError + list Channel :=
  if negb (bool_decide (is_Some (download cfg))) && negb (bool_decide (is_Some (upload cfg)))
  then inl (Error "Missing at least one of download/upload config")
  else
    match checkAll [(download cfg, "download"); (upload cfg, "upload")] with
    | Some e => inl e
    | None =>
        let pushed :=
          match download cfg with
          | Some d =>
              match getLoadEngine rt (localAddress cfg) (apiUrl d)
                      [("bytes", template_number rt (chunkSize d))] None None with
              | inl e => inl e
              | inr ch => inr [ch]
              end
          | None => inr []
          end in
        match pushed with
        | inl e => inl e
        | inr engines =>
            match upload cfg with
            | Some u =>
                match repeat0 rt (default 0%Z (chunkSize u)) with
                | inl e => inl e
                | inr filler =>
                    match getLoadEngine rt (localAddress cfg) (apiUrl u) []
                            (Some "POST") (Some filler) with
                    | inl e => inl e
                    | inr ch => inr (engines ++ [ch])
                    end
                end
            | None => inr engines
            end
        end
    end.

Definition on_engine (f : PromiseEngine.t → PromiseEngine.t) (ch : Channel) : Channel :=
  mkEngine (request ch) (f (engine ch)).

Definition pause (engines : list Channel) : list Channel :=
  map (on_engine PromiseEngine.pause) engines.

Definition stop (engines : list Channel) : list Channel := pause engines.

Definition play (engines : list Channel) : list Channel :=
  map (on_engine PromiseEngine.play) engines.

(** The errors the constructor throws on purpose. *)
Definition is_config_error {A} (r : JsError + A) : bool :=
  match r with
  | inl (Error _) => true
  | _ => false
  end.

Definition throws {A} (r : JsError + A) : bool :=
  match r with inl _ => true | inr _ => false end.

(** The constraints of the specification on one supplied configuration:
    a non-empty [apiUrl] and a positive [chunkSize]. *)
Definition well_formed (c : ChannelConfig) : Prop :=
  truthy_string (apiUrl c) = true ∧ ∃ n, chunkSize c = Some n ∧ (0 < n)%Z.

Definition supplied (cfg : Config) : list ChannelConfig :=
  option_list (download cfg) ++ option_list (upload cfg).

(** A configuration the specification accepts. *)
Definition valid (cfg : Config) : Prop :=
  supplied cfg ≠ [] ∧ Forall well_formed (supplied cfg).

(** What the constructor checks instead: presence. *)
Definition present (c : ChannelConfig) : Prop :=
  truthy_string (apiUrl c) = true ∧ truthy_number (chunkSize c) = true.

(** The specification's reading of the constructor: it throws a
    configuration error exactly on the configurations that are not
    [valid]. *)
Definition rejects_exactly_invalid (rt : Runtime) (cfg : Config) : Prop :=
  is_config_error (construct rt cfg) = true ↔ ¬ valid cfg.

(** The strings the constructor builds for the supplied configurations
    are within the limit of the runtime: the url of each channel and the
    body of the upload channel. *)
Definition fits (rt : Runtime) (cfg : Config) : Prop :=
  (∀ d, download cfg = Some d →
        (Z.of_nat (String.length
           (requestUrl (apiUrl d) [("bytes", template_number rt (chunkSize d))]))
         ≤ maxStringLength rt)%Z) ∧
  (∀ u, upload cfg = Some u →
        (default 0 (chunkSize u) ≤ maxStringLength rt)%Z ∧
        (Z.of_nat (String.length (requestUrl (apiUrl u) [])) ≤ maxStringLength rt)%Z).

End LoadNetworkEngine.

(** ** ReachabilityEngine *)

Module ReachabilityEngine.

(** The value of the [error] property of a result: the rejection reason
    of the request, or the string of the timer callback. *)
Inductive ErrorValue :=
| Reason (e : JsError)
| Message (s : string).

(** The second constructor argument; [timeout] defaults to [-1]. *)
Record Options := mkOptions {
  timeout : option Z;
  localAddress : option string
}.

Section Engine.

(** What the request promise fulfils with. *)
Context {Response : Type}.

(** The object handed to [onFinished]. *)
Record Result := mkResult {
  targetUrl : string;
  reachable : bool;
  response : option Response;
  error : option ErrorValue
}.

(** The callback the caller assigned: [None] when it returns,
    [Some e] when it throws [e]. *)
Variable onFinished : Result → option JsError.

(** The closure variable [finished], the two pending sources
    ([request]: the promise has not settled; [timer]: a timeout is
    armed and has not fired), and the calls of [onFinished] so far. *)
Record t := mk {
  finished : bool;
  request : bool;
  timer : bool;
  delivered : list Result
}.

(** [finish({ reachable, ...rest })]; the second component is what the
    call throws, if anything. *)
Definition finish (url : string) (reach : bool) (resp : option Response)
    (err : option ErrorValue) (s : t) : t * option JsError :=
  if finished s then (s, None)
  else
    let r := mkResult url reach resp err in
    (mk true (request s) (timer s) (delivered s ++ [r]), onFinished r).

Definition construct (url : string) (o : Options) : t :=
  mk false true (0 <? default (-1) (timeout o))%Z [].

Inductive Event :=
| Fulfilled (r : Response)
| Rejected (e : JsError)
| TimerFired.

(** One callback of the constructor runs.  The [catch] reaction is
    chained after the [then] reaction, so it also receives what the
    [then] reaction throws. *)
Definition step (url : string) (s : t) (ev : Event) : t :=
  match ev with
  | Fulfilled r =>
      if request s then
        let s1 := mk (finished s) false (timer s) (delivered s) in
        match finish url true (Some r) None s1 with
        | (s2, Some e) => (finish url false None (Some (Reason e)) s2).1
        | (s2, None) => s2
        end
      else s
  | Rejected e =>
      if request s then
        let s1 := mk (finished s) false (timer s) (delivered s) in
        (finish url false None (Some (Reason e)) s1).1
      else s
  | TimerFired =>
      if timer s then
        let s1 := mk (finished s) (request s) false (delivered s) in
        (finish url false None (Some (Message "Request timeout")) s1).1
      else s
  end.

Definition run (url : string) (s : t) (evs : list Event) : t :=
  foldl (step url) s evs.

(** The event is a settlement the engine has a callback for. *)
Definition settles (o : Options) (ev : Event) : bool :=
  match ev with
  | TimerFired => (0 <? default (-1) (timeout o))%Z
  | _ => true
  end.

End Engine.

Arguments Result : clear implicits.
Arguments t : clear implicits.
Arguments Event : clear implicits.

Definition is_timer {Response} (ev : Event Response) : bool :=
  match ev with
  | TimerFired => true
  | _ => false
  end.

(** A result names the url and carries a response exactly when it says
    reachable, an error exactly when it says unreachable. *)
Definition coherent {Response} (url : string) (r : Result Response) : Prop :=
  targetUrl r = url ∧
  (if reachable r
   then is_Some (response r) ∧ error r = None
   else response r = None ∧ is_Some (error r)).

End ReachabilityEngine.

(** ** nodeRequest.js *)

Module NodeRequest.

(** *** The clock

    [performance.now()] is monotonic.  A clock is its last reading and
    the increments of the readings to come (none left: time stands
    still). *)
Record Clock := mkClock { time : Z; ticks : list N }.

(** Computations that read the clock and may throw. *)
Definition M (A : Type) : Type := Clock → (JsError + A) * Clock.

Definition ret {A} (a : A) : M A := λ c, (inr a, c).

Definition throw {A} (e : JsError) : M A := λ c, (inl e, c).

Definition bind {A B} (m : M A) (k : A → M B) : M B :=
  λ c, match m c with
       | (inr a, c') => k a c'
       | (inl e, c') => (inl e, c')
       end.

Definition try_catch {A} (m : M A) (handler : JsError → M A) : M A :=
  λ c, match m c with
       | (inl e, c') => handler e c'
       | r => r
       end.

Definition now : M Z :=
  λ c, match ticks c with
       | d :: ds => let t := (time c + Z.of_N d)%Z in (inr t, mkClock t ds)
       | [] => (inr (time c), c)
       end.

Notation "'let*' x ':=' m 'in' k" := (bind m (λ x, k))
  (at level 10, x pattern, m at level 100, k at level 200, only parsing).

(** *** Strings as JavaScript reads them (ASCII) *)

Definition code (c : ascii) : Z := Z.of_nat (nat_of_ascii c).

Definition is_white (c : ascii) : bool :=
  let n := code c in ((9 <=? n) && (n <=? 13) || (n =? 32))%Z.

(** The value of [c] as a digit of the given radix. *)
Definition digit (radix : Z) (c : ascii) : option Z :=
  let n := code c in
  let v := if ((48 <=? n) && (n <=? 57))%Z then Some (n - 48)%Z
           else if ((97 <=? n) && (n <=? 122))%Z then Some (n - 87)%Z
           else if ((65 <=? n) && (n <=? 90))%Z then Some (n - 55)%Z
           else None in
  match v with
  | Some d => if (d <? radix)%Z then Some d else None
  | None => None
  end.

Fixpoint skip_white (s : string) : string :=
  match s with
  | String c rest => if is_white c then skip_white rest else s
  | EmptyString => s
  end.

(** The digits at the start of [s], most significant first. *)
Fixpoint leading_digits (radix : Z) (s : string) : list Z :=
  match s with
  | String c rest =>
      match digit radix c with
      | Some d => d :: leading_digits radix rest
      | None => []
      end
  | EmptyString => []
  end.

Definition number (radix : Z) (ds : list Z) : Z :=
  foldl (λ acc d, acc * radix + d)%Z 0%Z ds.

(** [parseInt(s)] without a radix argument; [None] is [NaN]. *)
Definition parseInt (s : string) : option Z :=
  let s1 := skip_white s in
  let '(sign, s2) :=
    match s1 with
    | String "-" rest => ((-1)%Z, rest)
    | String "+" rest => (1%Z, rest)
    | _ => (1%Z, s1)
    end in
  let '(radix, s3) :=
    match s2 with
    | String "0" (String "x" rest) => (16%Z, rest)
    | String "0" (String "X" rest) => (16%Z, rest)
    | _ => (10%Z, s2)
    end in
  match leading_digits radix s3 with
  | [] => None
  | ds => Some (sign * number radix ds)%Z
  end.

Fixpoint strip_prefix (p s : string) : option string :=
  match p, s with
  | EmptyString, _ => Some s
  | String a p', String b s' => if Ascii.eqb a b then strip_prefix p' s' else None
  | String _ _, EmptyString => None
  end.

(** The longest run of decimal digits at the start of [s]. *)
Fixpoint decimal_run (s : string) : string :=
  match s with
  | String c rest =>
      match digit 10 c with
      | Some _ => String c (decimal_run rest)
      | None => EmptyString
      end
  | EmptyString => EmptyString
  end.

(** [serverTiming.match(/sent_bytes=(\d+)/)]: group 1 of the leftmost
    match, [None] when there is none. *)
Fixpoint match_sent_bytes (s : string) : option string :=
  match s with
  | EmptyString => None
  | String _ rest =>
      match strip_prefix "sent_bytes=" s with
      | Some after =>
          match decimal_run after with
          | EmptyString => match_sent_bytes rest
          | ds => Some ds
          end
      | None => match_sent_bytes rest
      end
  end.

(** *** Data *)

(** What [nodeFetch] reads of its [options]. *)
Record Options := mkOptions {
  localAddress : option string;
  method : option string;
  body : option string
}.

(** The [http.IncomingMessage] handed to the response callback;
    [encrypted] is [res.socket && res.socket.encrypted]. *)
Record IncomingMessage := mkIncoming {
  statusCode : Z;
  statusMessage : string;
  httpVersion : string;
  headers : gmap string string;
  encrypted : bool
}.

(** A chunk of the body, as the ['data'] listener uses it: the Buffer's
    [chunk.length], a number of bytes, and the text the Buffer decodes
    to when it is appended to [body].  The two differ as soon as a
    character takes more than one byte. *)
Record Chunk := mkChunk {
  byteLength : nat;
  decoded : string
}.

(** A chunk of one-byte characters. *)
Definition asciiChunk (s : string) : Chunk := mkChunk (String.length s) s.

(** What the transport does during one call: the lookup and the probe
    connection fail with an error or succeed ([None]); the request
    emits ['error'], or a response arrives and its body streams as
    chunks up to ['end']. *)
Record Transport := mkTransport {
  lookup : option JsError;
  connect : option JsError;
  exchange : JsError + IncomingMessage * list Chunk
}.

(** The [timings] object; a property not assigned yet is [None]. *)
Record Timings := mkTimings {
  startTime : Z;
  dnsStart : option Z;
  dnsEnd : option Z;
  tcpConnectStart : option Z;
  tcpConnectEnd : option Z;
  tlsHandshakeStart : option Z;
  tlsHandshakeEnd : option Z;
  uploadLatency : option Z;
  firstByteTime : option Z;
  downloadLatency : option Z;
  endTime : option Z;
  transferSize : option Z
}.

Record NodeResponse := mkResponse {
  status : Z;
  statusText : string;
  ok : bool;
  responseBody : string;
  bodyUsed : bool;
  timings : Timings
}.

(** [new NodeResponse(response, body, timings)] (the header map, [type],
    [url] and [rawResponse] are copies of the arguments). *)
Definition newNodeResponse (res : IncomingMessage) (b : string) (tm : Timings)
    : NodeResponse :=
  mkResponse (statusCode res) (statusMessage res)
    ((200 <=? statusCode res) && (statusCode res <? 300))%Z b false tm.

(** Subtraction of two possibly undefined numbers. *)
Definition minus (a b : option Z) : option Z :=
  match a, b with
  | Some x, Some y => Some (x - y)%Z
  | _, _ => None
  end.

Record NodePerformanceResourceTiming := mkEntry {
  name : string;
  entryStartTime : Z;
  duration : option Z;
  nextHopProtocol : string;
  fetchStart : Z;
  domainLookupStart : option Z;
  domainLookupEnd : option Z;
  connectStart : option Z;
  secureConnectionStart : option Z;
  connectEnd : option Z;
  requestStart : Z;
  responseStart : option Z;
  responseEnd : option Z;
  latency : option Z;
  entryTransferSize : option Z;
  encodedBodySize : Z;
  decodedBodySize : Z
}.

(** The [transferSize] the constructor below computes from the response
    headers and [bodySize]. *)
Definition computeTransferSize (hs : gmap string string) (bodySize : Z) : option Z :=
  let size :=
    if truthy_string (hs !! "content-length")
    then parseInt (default "" (hs !! "content-length"))
    else if bool_decide (hs !! "transfer-encoding" = Some "chunked")
    then Some (bodySize + 200)%Z
    else Some bodySize in
  if bool_decide (size = Some 0%Z) && truthy_string (hs !! "server-timing")
  then
    match match_sent_bytes (default "" (hs !! "server-timing")) with
    | Some digits => parseInt digits
    | None => size
    end
  else size.

(** [new NodePerformanceResourceTiming(timings, url, response, bodySize)] *)
Definition newNodePerformanceResourceTiming (tm : Timings) (url : string)
    (res : IncomingMessage) (bodySize : Z) : NodePerformanceResourceTiming :=
  mkEntry url (startTime tm)
    (minus (endTime tm) (Some (startTime tm)))
    (if String.eqb (httpVersion res) "2.0" then "h2" else "http/1.1")
    (startTime tm) (dnsStart tm) (dnsEnd tm) (tcpConnectStart tm)
    (tlsHandshakeStart tm) (tcpConnectEnd tm) (startTime tm)
    (firstByteTime tm) (endTime tm)
    (minus (firstByteTime tm) (Some (startTime tm)))
    (computeTransferSize (headers res) bodySize)
    bodySize bodySize.

(** *** Scopes

    The names a piece of code can refer to: the globals of Node the
    module uses, the imports and declarations of the module, the
    parameters and locals of [nodeFetch], and the parameter of its
    [catch] clause.  The constants of the [try] block and the
    parameters of the promise executor inside it are not visible in
    the [catch] block. *)
Definition globals : list string :=
  ["console"; "Promise"; "Object"; "JSON"; "TypeError"; "parseInt";
   "setTimeout"; "undefined"].

Definition module_scope : list string :=
  ["https"; "performance"; "dns"; "promisify"; "net"; "url";
   "NodeResponse"; "NodePerformanceResourceTiming"; "lookup"; "sleep";
   "measureDNS"; "measureTCPConnect"; "nodeFetch"] ++ globals.

Definition function_scope : list string :=
  ["urlStr"; "options"; "start"; "parsedUrl"; "hostname"; "port"; "path";
   "localAddress"; "httpsOptions"; "timings"] ++ module_scope.

Definition try_scope : list string :=
  ["dnsResult"; "dnsTime"; "tcpTime"] ++ function_scope.

Definition executor_scope : list string :=
  ["resolve"; "reject"; "requestOptions"; "body"; "bodySize";
   "firstByteTime"; "tlsHandshakeEnd"; "req"] ++ try_scope.

Definition catch_scope : list string := ["error"] ++ function_scope.

(** Evaluating the identifier [x] in [scope]: an unresolvable reference
    throws. *)
Definition identifier (scope : list string) (x : string) : M unit :=
  if bool_decide (x ∈ scope) then ret ()
  else throw (ReferenceError (x +:+ " is not defined")).

(** *** The probe *)

(** [await] of a promise that rejects with [e] or fulfils. *)
Definition await (outcome : option JsError) : M unit :=
  match outcome with
  | Some e => throw e
  | None => ret ()
  end.

Definition measureTCPConnect (tr : Transport) : M Z :=
  let* start := now in
  match connect tr with
  | Some e => throw e
  | None => let* t := now in ret (t - start)%Z
  end.

(** The variables the ['data'] listener updates. *)
Record Received := mkReceived {
  rFirstByteTime : option Z;
  rDownloadLatency : option Z;
  rBody : string;
  rBodySize : Z
}.

(** [!firstByteTime] *)
Definition unset (t : option Z) : bool :=
  match t with
  | None => true
  | Some v => (v =? 0)%Z
  end.

(** The ['data'] listener on one chunk: [body += chunk] appends the
    decoded text, [bodySize += chunk.length] adds the bytes. *)
Definition onData (o : Options) (start_time : Z) (st : Received) (chunk : Chunk)
    : M Received :=
  let* st1 :=
    (if unset (rFirstByteTime st) then
       let* t := now in
       ret (mkReceived (Some t)
              (if bool_decide (method o = Some "GET")
               then Some (t - start_time)%Z else rDownloadLatency st)
              (rBody st) (rBodySize st))
     else ret st) in
  ret (mkReceived (rFirstByteTime st1) (rDownloadLatency st1)
         (rBody st1 +:+ decoded chunk)
         (rBodySize st1 + Z.of_nat (byteLength chunk))%Z).

Fixpoint onChunks (o : Options) (start_time : Z) (st : Received)
    (chunks : list Chunk) : M Received :=
  match chunks with
  | [] => ret st
  | chunk :: rest =>
      let* st' := onData o start_time st chunk in
      onChunks o start_time st' rest
  end.

(** The part of [nodeFetch] inside [try] up to the [return]. *)
Definition connectPhase (tr : Transport) : M (Z * Z * Z * Z) :=
  let* dns_start := now in
  let* _ := await (lookup tr) in
  let* dns_end := now in
  let* tcp_start := now in
  let* tcpTime := measureTCPConnect tr in
  ret (dns_start, dns_end, tcp_start, (tcp_start + tcpTime)%Z).

(** The promise built in the executor: the response callback, the
    ['data'] and ['end'] listeners, and the ['error'] listener of the
    request, whose [reject] is the executor's parameter. *)
Definition exchangePhase (urlStr : string) (o : Options) (tr : Transport)
    (start_time : Z) (phase : Z * Z * Z * Z) : M NodeResponse :=
  let '(dns_start, dns_end, tcp_start, tcp_end) := phase in
  match exchange tr with
  | inl e =>
      let* _ := identifier executor_scope "reject" in
      throw e
  | inr (res, chunks) =>
      let* tls :=
        (if encrypted res then
           let* t := now in
           ret (Some t,
                if bool_decide (method o = Some "POST")
                then Some (t - start_time)%Z else None)
         else ret (None, None)) in
      let* rcv := onChunks o start_time (mkReceived None None "" 0) chunks in
      let* end_time := now in
      let tm := mkTimings start_time (Some dns_start) (Some dns_end)
                  (Some tcp_start) (Some tcp_end) (Some tcp_end)
                  tls.1 tls.2 (rFirstByteTime rcv) (rDownloadLatency rcv)
                  (Some end_time) (Some (rBodySize rcv)) in
      let response := newNodeResponse res (rBody rcv) tm in
      let perfEntry := newNodePerformanceResourceTiming tm urlStr res
                         (Z.of_nat (String.length (rBody rcv))) in
      ret response
  end.

(** The [catch] block: [console.error(...)], then [reject(error)]; past
    it the function body ends and the function returns [undefined]. *)
Definition catchBlock {A} (error : JsError) : M (option A) :=
  let* _ := identifier catch_scope "console" in
  let* _ := identifier catch_scope "reject" in
  ret None.

(** [nodeFetch(urlStr, options)].  The result is how the returned
    promise settles: [inl e] rejected with [e], [inr (Some r)] fulfilled
    with the response, [inr None] fulfilled with [undefined].  The
    promise returned from inside [try] is not awaited there, so its
    rejection does not pass through the [catch] block. *)
Definition nodeFetch (urlStr : string) (o : Options) (tr : Transport)
    : M (option NodeResponse) :=
  let* start := now in
  let* start_time := now in
  let* phase :=
    try_catch
      (let* p := connectPhase tr in ret (Some p))
      catchBlock in
  match phase with
  | Some p =>
      let* r := exchangePhase urlStr o tr start_time p in
      ret (Some r)
  | None => ret None
  end.

(** The performance entry [nodeFetch] builds (and drops) for a response. *)
Definition perfEntryOf (urlStr : string) (res : IncomingMessage) (r : NodeResponse)
    : NodePerformanceResourceTiming :=
  newNodePerformanceResourceTiming (timings r) urlStr res
    (Z.of_nat (String.length (responseBody r))).

(** The order of the phase timestamps of a record, all of them set. *)
Definition ordered (tm : Timings) : Prop :=
  ∃ a b c d e f g h,
    dnsStart tm = Some a ∧ dnsEnd tm = Some b ∧ tcpConnectStart tm = Some c ∧
    tcpConnectEnd tm = Some d ∧ tlsHandshakeStart tm = Some e ∧
    tlsHandshakeEnd tm = Some f ∧ firstByteTime tm = Some g ∧
    endTime tm = Some h ∧
    (startTime tm ≤ a ∧ a ≤ b ∧ b ≤ c ∧ c ≤ d ∧ d ≤ e ∧ e ≤ f ∧ f ≤ g ∧ g ≤ h)%Z.

(** While chunks arrive: the first-byte time, once set, lies between
    [lo] and the clock, and the download latency goes with it. *)
Definition receiving (o : Options) (start_time lo : Z) (st : Received) (c : Clock)
    : Prop :=
  (∀ g, rFirstByteTime st = Some g → (lo ≤ g ∧ g ≤ time c)%Z) ∧
  rDownloadLatency st =
    if bool_decide (method o = Some "GET")
    then (λ g, (g - start_time)%Z) <$> rFirstByteTime st
    else None.

(** What a fulfilled [nodeFetch] has recorded in [timings], for a
    response [res] whose body arrived as [chunks]. *)
Definition phases (o : Options) (res : IncomingMessage) (chunks : list Chunk)
    (tm : Timings) : Prop :=
  ∃ a b c d tls h,
    dnsStart tm = Some a ∧ dnsEnd tm = Some b ∧
    tcpConnectStart tm = Some c ∧ tcpConnectEnd tm = Some d ∧
    tlsHandshakeStart tm = Some d ∧ endTime tm = Some h ∧
    (startTime tm ≤ a ∧ a ≤ b ∧ b ≤ c ∧ c ≤ d ∧ d ≤ tls ∧ tls ≤ h)%Z ∧
    tlsHandshakeEnd tm = (if encrypted res then Some tls else None) ∧
    uploadLatency tm =
      (if encrypted res && bool_decide (method o = Some "POST")
       then Some (tls - startTime tm)%Z else None) ∧
    (∀ g, firstByteTime tm = Some g → (tls ≤ g ∧ g ≤ h)%Z) ∧
    (chunks ≠ [] → is_Some (firstByteTime tm)) ∧
    (chunks = [] → firstByteTime tm = None) ∧
    downloadLatency tm =
      (if bool_decide (method o = Some "GET")
       then (λ g, (g - startTime tm)%Z) <$> firstByteTime tm
       else None).


(** *** The methods of [NodeResponse] *)

(** [text()]: how the returned promise settles, and the response after
    the call. *)
Definition text (r : NodeResponse) : (JsError + string) * NodeResponse :=
  if bodyUsed r then (inl (TypeError "Body already used"), r)
  else (inr (responseBody r),
        mkResponse (status r) (statusText r) (ok r) (responseBody r) true (timings r)).

(** [json()] is [this.text().then(text => JSON.parse(text))]; [parse] is
    [JSON.parse], which returns a value or throws. *)
Definition json {J : Type} (parse : string → JsError + J) (r : NodeResponse)
    : (JsError + J) * NodeResponse :=
  match text r with
  | (inl e, r') => (inl e, r')
  | (inr s, r') => (parse s, r')
  end.

(** [clone()]: the constructor applied to the status, the status text,
    the body and the timings of [this]. *)
Definition clone (r : NodeResponse) : NodeResponse :=
  mkResponse (status r) (statusText r)
    ((200 <=? status r) && (status r <? 300))%Z (responseBody r) false (timings r).

(** [key.toLowerCase()] on ASCII. *)
Definition lower (c : ascii) : ascii :=
  let n := nat_of_ascii c in
  if (65 <=? n)%nat && (n <=? 90)%nat then ascii_of_nat (n + 32) else c.

Fixpoint toLowerCase (s : string) : string :=
  match s with
  | EmptyString => EmptyString
  | String c rest => String (lower c) (toLowerCase rest)
  end.

(** A [Map] with string keys: its entries in insertion order.
    [mapSet] is [map.set(k, v)]: the value of an existing key is replaced
    in place, a new key is added at the end. *)
Fixpoint mapSet (k v : string) (m : list (string * string)) : list (string * string) :=
  match m with
  | [] => [(k, v)]
  | (k', v') :: rest =>
      if String.eqb k' k then (k', v) :: rest else (k', v') :: mapSet k v rest
  end.

(** [map.get(k)] *)
Fixpoint mapGet (k : string) (m : list (string * string)) : option string :=
  match m with
  | [] => None
  | (k', v') :: rest => if String.eqb k' k then Some v' else mapGet k rest
  end.

(** The [headers] map of the constructor, from the entries of
    [response.headers] in the order [Object.entries] lists them. *)
Definition headersOf (entries : list (string * string)) : list (string * string) :=
  foldl (λ m kv, mapSet (toLowerCase kv.1) kv.2 m) [] entries.

(** The value of the last entry whose name is [k] up to case. *)
Definition lastValue (k : string) (entries : list (string * string)) : option string :=
  foldl (λ acc kv, if String.eqb (toLowerCase kv.1) k then Some kv.2 else acc)
    None entries.

(** Every character of [s] is a decimal digit. *)
Fixpoint digits_only (s : string) : bool :=
  match s with
  | EmptyString => true
  | String c rest =>
      match digit 10 c with
      | Some _ => digits_only rest
      | None => false
      end
  end.




(** The response after [n] calls of [text()]. *)
Definition afterReads (n : nat) (r : NodeResponse) : NodeResponse :=
  Nat.iter n (λ r', (text r').2) r.

(** The names of a list of entries are in lower case and distinct. *)
Definition normalised (m : list (string * string)) : Prop :=
  Forall (λ kv, toLowerCase kv.1 = kv.1) m ∧ NoDup m.*1.

(** [measureDNS(hostname)] *)
Definition measureDNS (tr : Transport) : M Z :=
  let* start := now in
  let* _ := await (lookup tr) in
  let* t := now in
  ret (t - start)%Z.

End NodeRequest.

(** ** The operation of a load channel *)

Module LoadChannel.

(** How the promise of [fetch] or [nodeFetch] settles. *)
Inductive FetchOutcome :=
| FetchRejected (e : JsError)
| FetchFulfilled (r : NodeRequest.NodeResponse).

(** The reaction of [getLoadEngine]:
    [r => { if (!r.ok) throw Error(r.statusText); return r.text(); }];
    the result is how the promise returned by [promiseFn] settles. *)
Definition operation (out : FetchOutcome) : JsError + string :=
  match out with
  | FetchRejected e => inl e
  | FetchFulfilled r =>
      if negb (NodeRequest.ok r) then inl (Error (NodeRequest.statusText r))
      else (NodeRequest.text r).1
  end.

Definition fulfils (out : FetchOutcome) : bool :=
  match operation out with
  | inl _ => false
  | inr _ => true
  end.

(** The request of promise [h] of a channel ends with [out]. *)
Definition settleChannel (h : nat) (out : FetchOutcome)
    (ch : LoadNetworkEngine.Channel) : LoadNetworkEngine.Channel :=
  LoadNetworkEngine.on_engine (PromiseEngine.settle h (fulfils out)) ch.

End LoadChannel.

(** ** The request of the reachability engine *)

Module ReachabilityRequest.

(** What the request promise of the engine fulfils with: the value of
    the promise of [fetch] or [nodeFetch]. *)
Definition Response : Type := option NodeRequest.NodeResponse.

(** [{ ...fetchOptions, ...(localAddress ? { localAddress } : {}) }] *)
Definition finalFetchOptions (fetchOptions : NodeRequest.Options)
    (localAddress : option string) : NodeRequest.Options :=
  if truthy_string localAddress
  then NodeRequest.mkOptions localAddress (NodeRequest.method fetchOptions)
         (NodeRequest.body fetchOptions)
  else fetchOptions.

(** [(isNodeFetch ? nodeFetch : fetch)(targetUrl, finalFetchOptions)]:
    how the promise settles.  The outcome of the global [fetch] is an
    input; that of [nodeFetch] is computed from the transport. *)
Definition request (fetched : JsError + Response) (targetUrl : string)
    (o : ReachabilityEngine.Options) (fetchOptions : NodeRequest.Options)
    (tr : NodeRequest.Transport) (c : NodeRequest.Clock) : JsError + Response :=
  if truthy_string (ReachabilityEngine.localAddress o)
  then (NodeRequest.nodeFetch targetUrl
          (finalFetchOptions fetchOptions (ReachabilityEngine.localAddress o))
          tr c).1
  else fetched.

(** The callback of the engine that runs when the promise settles. *)
Definition settlement (outcome : JsError + Response)
    : ReachabilityEngine.Event Response :=
  match outcome with
  | inl e => ReachabilityEngine.Rejected e
  | inr r => ReachabilityEngine.Fulfilled r
  end.

(** The engine after its request has settled first and the callbacks
    [rest] have run after it. *)
Definition requestFirst (onFinished : ReachabilityEngine.Result Response → option JsError)
    (fetched : JsError + Response) (targetUrl : string)
    (o : ReachabilityEngine.Options) (fetchOptions : NodeRequest.Options)
    (tr : NodeRequest.Transport) (c : NodeRequest.Clock)
    (rest : list (ReachabilityEngine.Event Response))
    : ReachabilityEngine.t Response :=
  ReachabilityEngine.run onFinished targetUrl
    (ReachabilityEngine.construct targetUrl o)
    (settlement (request fetched targetUrl o fetchOptions tr c) :: rest).

End ReachabilityRequest.

(** * Properties *)

(** ** The loop engine *)

Section PromiseEngineFacts.

Import PromiseEngine.

Lemma setRunning_heap r s : heap (setRunning r s) = heap s.
Proof. unfold setRunning. by destruct (negb _). Qed.

Lemma setRunning_trace r s : trace (setRunning r s) = trace s.
Proof. unfold setRunning. by destruct (negb _). Qed.

Lemma setRunning_current r s : currentPromise (setRunning r s) = currentPromise s.
Proof. unfold setRunning. by destruct (negb _). Qed.

Lemma setRunning_running r s : running (setRunning r s) = r.
Proof. destruct s as [r0 ? ? ?]. by destruct r, r0. Qed.

(** A trace extended by one event splits at a start either inside the
    old trace or at the new event. *)
Lemma snoc_split (tr pre post : list Event) (e x : Event) :
  tr ++ [e] = pre ++ x :: post →
  (post = [] ∧ pre = tr ∧ x = e) ∨
  (∃ post', post = post' ++ [e] ∧ tr = pre ++ x :: post').
Proof.
  induction post as [|y post' _] using rev_ind; intros H.
  - left. apply app_inj_tail in H as [-> ->]. done.
  - right. replace (pre ++ x :: post' ++ [y]) with ((pre ++ x :: post') ++ [y]) in H
      by (rewrite <- app_assoc; done).
    apply app_inj_tail in H as [-> ->]. eauto.
Qed.

(** *** Sequencing *)

Lemma sequential_ext s s' :
  heap s' = heap s → trace s' = trace s → sequential s → sequential s'.
Proof. intros Hh Ht [H1 H2 H3]. split; rewrite ?Hh, ?Ht; done. Qed.

Lemma sequential_fresh : sequential fresh.
Proof.
  split; simpl; try done.
  intros n pre post H. by destruct pre.
Qed.

(** Starting an operation when nothing is in flight keeps the invariant. *)
Lemma sequential_next s :
  sequential s →
  (∀ h p, heap s !! h = Some p → settled p = true) →
  sequential (next s).
Proof.
  intros [H1 H2 H3] Hall. split; simpl.
  - intros h p Hl Hlt. rewrite length_app in Hlt. simpl in Hlt.
    rewrite lookup_app_l in Hl by lia. eauto.
  - intros h p Hl Hs. apply in_or_app. left.
    destruct (decide (h < length (heap s))) as [Hlt|Hge].
    + rewrite lookup_app_l in Hl by lia. eauto.
    + rewrite lookup_app_r in Hl by lia.
      destruct (h - length (heap s)) as [|k]; simpl in Hl; by simplify_eq.
  - intros n pre post Heq.
    apply snoc_split in Heq as [(_ & -> & Hx)|(post' & _ & Heq)].
    + inversion Hx as [Hn].
      destruct (lookup_lt_is_Some_2 (heap s) n) as [p Hp]; [lia|].
      eauto.
    + eauto.
Qed.

Lemma sequential_play s :
  sequential s → running s || no_inflight s = true → sequential (play s).
Proof.
  intros Hs Hg. unfold play.
  destruct (running s) eqn:Hr; simpl in *; [done|].
  apply sequential_next.
  - by apply (sequential_ext s); rewrite ?setRunning_heap, ?setRunning_trace.
  - rewrite setRunning_heap. intros h p Hl.
    unfold no_inflight in Hg. rewrite forallb_forall in Hg.
    apply Hg, list_elem_of_In. by eapply list_elem_of_lookup_2.
Qed.

Lemma sequential_pause s : sequential s → sequential (pause s).
Proof.
  intros Hs. unfold pause.
  apply (sequential_ext (cancelCurrent s));
    rewrite ?setRunning_heap, ?setRunning_trace; try done.
  unfold cancelCurrent.
  destruct (currentPromise s) as [h0|]; [|done].
  destruct (heap s !! h0) as [p0|] eqn:Hp0; [|done].
  destruct Hs as [H1 H2 H3]. split; simpl; [| |done].
  - intros h p Hl Hlt. rewrite length_insert in Hlt.
    destruct (decide (h0 = h)) as [->|Hne].
    + rewrite list_lookup_insert_eq in Hl by (by eapply lookup_lt_Some).
      simplify_eq. simpl. eauto.
    + rewrite list_lookup_insert_ne in Hl by done. eauto.
  - intros h p Hl Hset.
    destruct (decide (h0 = h)) as [->|Hne].
    + rewrite list_lookup_insert_eq in Hl by (by eapply lookup_lt_Some).
      simplify_eq. simpl in Hset. eauto.
    + rewrite list_lookup_insert_ne in Hl by done. eauto.
Qed.

Lemma sequential_settle h f s : sequential s → sequential (settle h f s).
Proof.
  intros Hs. unfold settle.
  destruct (heap s !! h) as [p|] eqn:Hp; [|done].
  destruct (settled p) eqn:Hsp; [done|].
  set (s' := mk _ _ _ _).
  assert (Hs' : sequential s').
  { destruct Hs as [H1 H2 H3]. split; simpl.
    - intros h' p' Hl Hlt. rewrite length_insert in Hlt.
      destruct (decide (h = h')) as [->|Hne].
      + rewrite list_lookup_insert_eq in Hl by (by eapply lookup_lt_Some).
        by simplify_eq.
      + rewrite list_lookup_insert_ne in Hl by done. eauto.
    - intros h' p' Hl Hset. apply in_or_app.
      destruct (decide (h = h')) as [->|Hne]; [right; by left|left].
      rewrite list_lookup_insert_ne in Hl by done. eauto.
    - intros n pre post Heq.
      apply snoc_split in Heq as [(_ & _ & Hx)|(post' & _ & Heq)]; [done|eauto]. }
  destruct (f && negb (_cancel p)); [|done].
  apply sequential_next; [done|].
  subst s'. simpl. intros h' p' Hl.
  destruct (decide (h = h')) as [->|Hne].
  - rewrite list_lookup_insert_eq in Hl by (by eapply lookup_lt_Some).
    by simplify_eq.
  - rewrite list_lookup_insert_ne in Hl by done.
    destruct Hs as [H1 _ _]. apply (H1 h' p' Hl).
    (* [h] is unsettled, so it is the newest promise *)
    destruct (decide (S h < length (heap s))) as [Hlt|Hge].
    + rewrite (H1 h p Hp Hlt) in Hsp. done.
    + apply lookup_lt_Some in Hp, Hl. lia.
Qed.

Lemma sequential_run ins : ∀ s,
  sequential s → play_waits s ins = true → sequential (run s ins).
Proof.
  induction ins as [|i rest IH]; intros s Hs Hg; [done|].
  simpl in Hg. apply andb_prop in Hg as [Hi Hrest].
  apply IH; [|done].
  destruct i; simpl;
    auto using sequential_play, sequential_pause, sequential_settle.
Qed.

(** *** Cancellation *)

Lemma all_cancelled_one_live s : all_cancelled s → one_live s.
Proof. intros Ha h p Hl Hs Hc. rewrite (Ha h p Hl Hs) in Hc. done. Qed.

Lemma one_live_next s : all_cancelled s → running s = true → one_live (next s).
Proof.
  intros Ha Hr h p Hl Hs Hc. simpl in *.
  destruct (decide (h < length (heap s))) as [Hlt|Hge].
  - rewrite lookup_app_l in Hl by lia. rewrite (Ha h p Hl Hs) in Hc. done.
  - apply lookup_lt_Some in Hl as Hlen. rewrite length_app in Hlen.
    simpl in Hlen. split; [f_equal; lia|done].
Qed.

Lemma all_cancelled_pause s : one_live s → all_cancelled (pause s).
Proof.
  intros Hj h p Hl Hs. unfold pause in Hl. rewrite setRunning_heap in Hl.
  destruct (_cancel p) eqn:Hc; [done|exfalso].
  unfold cancelCurrent in Hl.
  destruct (currentPromise s) as [h0|] eqn:Hcur.
  - destruct (heap s !! h0) as [p0|] eqn:Hp0; simpl in Hl.
    + destruct (decide (h0 = h)) as [->|Hne].
      * rewrite list_lookup_insert_eq in Hl by (by eapply lookup_lt_Some).
        by simplify_eq.
      * rewrite list_lookup_insert_ne in Hl by done.
        destruct (Hj h p Hl Hs Hc) as [? _]. congruence.
    + destruct (Hj h p Hl Hs Hc) as [? _]. congruence.
  - destruct (Hj h p Hl Hs Hc) as [? _]. congruence.
Qed.

Lemma one_live_play s : one_live s → one_live (play s).
Proof.
  intros Hj. unfold play.
  destruct (running s) eqn:Hr; simpl; [done|].
  apply one_live_next; [|apply setRunning_running].
  intros h p Hl Hs. rewrite setRunning_heap in Hl.
  destruct (_cancel p) eqn:Hc; [done|].
  destruct (Hj h p Hl Hs Hc) as [_ ?]. congruence.
Qed.

(** Marking [h] settled, before the reaction runs. *)
Lemma settle_unfold h f s p :
  heap s !! h = Some p → settled p = false →
  settle h f s =
    let s' := mk (running s) (currentPromise s)
                 (<[h := mkPromise (_cancel p) true]> (heap s))
                 (trace s ++ [Settled h]) in
    if f && negb (_cancel p) then next s' else s'.
Proof. intros Hp Hs. unfold settle. by rewrite Hp, Hs. Qed.

Lemma one_live_settle h f s : one_live s → one_live (settle h f s).
Proof.
  intros Hj.
  destruct (heap s !! h) as [p|] eqn:Hp; [|unfold settle; by rewrite Hp].
  destruct (settled p) eqn:Hsp; [unfold settle; by rewrite Hp, Hsp|].
  rewrite (settle_unfold h f s p) by done. simpl.
  destruct (f && negb (_cancel p)) eqn:Hgo.
  - apply andb_prop in Hgo as [_ Hc]. apply negb_true_iff in Hc.
    destruct (Hj h p Hp Hsp Hc) as [Hcur Hrun].
    apply one_live_next; [|done].
    intros h' p' Hl Hs'. simpl in Hl.
    destruct (decide (h = h')) as [->|Hne].
    + rewrite list_lookup_insert_eq in Hl by (by eapply lookup_lt_Some).
      by simplify_eq.
    + rewrite list_lookup_insert_ne in Hl by done.
      destruct (_cancel p') eqn:Hc'; [done|].
      destruct (Hj h' p' Hl Hs' Hc') as [? _]. congruence.
  - intros h' p' Hl Hs' Hc'. simpl in *.
    destruct (decide (h = h')) as [->|Hne].
    + rewrite list_lookup_insert_eq in Hl by (by eapply lookup_lt_Some).
      by simplify_eq.
    + rewrite list_lookup_insert_ne in Hl by done. eauto.
Qed.

Lemma one_live_step s i : one_live s → one_live (step s i).
Proof.
  intros Hj. destruct i; simpl;
    auto using one_live_play, one_live_settle,
               all_cancelled_one_live, all_cancelled_pause.
Qed.

Lemma one_live_run ins : ∀ s, one_live s → one_live (run s ins).
Proof.
  induction ins as [|i rest IH]; intros s Hs; [done|].
  simpl. auto using one_live_step.
Qed.

Lemma one_live_started : one_live started.
Proof. apply one_live_play. intros h p Hl. done. Qed.

(** The settlement of a cancelled promise starts nothing. *)
Lemma all_cancelled_settle h f s :
  all_cancelled s →
  all_cancelled (settle h f s) ∧ starts (settle h f s) = starts s.
Proof.
  intros Ha.
  destruct (heap s !! h) as [p|] eqn:Hp; [|unfold settle; by rewrite Hp].
  destruct (settled p) eqn:Hsp; [unfold settle; by rewrite Hp, Hsp|].
  rewrite (settle_unfold h f s p) by done. simpl.
  rewrite (Ha h p Hp Hsp), andb_false_r. split.
  - intros h' p' Hl Hs'. simpl in Hl.
    destruct (decide (h = h')) as [->|Hne].
    + rewrite list_lookup_insert_eq in Hl by (by eapply lookup_lt_Some).
      by simplify_eq.
    + rewrite list_lookup_insert_ne in Hl by done. eauto.
  - unfold starts. simpl. rewrite List.filter_app. simpl. apply app_nil_r.
Qed.

Lemma all_cancelled_settlements (l : list (nat * bool)) : ∀ s,
  all_cancelled s → starts (run s (map settlement l)) = starts s.
Proof.
  induction l as [|[h f] l IH]; intros s Ha; [done|].
  simpl. destruct (all_cancelled_settle h f s Ha) as [Ha' Heq].
  unfold settlement. destruct f; simpl; rewrite IH; done.
Qed.

Lemma run_app s (l1 l2 : list Input) : run s (l1 ++ l2) = run (run s l1) l2.
Proof. apply foldl_app. Qed.

Lemma settle_running h f s : running (settle h f s) = running s.
Proof.
  unfold settle. destruct (heap s !! h) as [p|]; [|done].
  destruct (settled p); [done|]. by destruct (f && negb (_cancel p)).
Qed.


(** C1 as stated does not hold: [pause()] followed by [play()] while the
    first operation is still in flight starts the second operation before
    the first has settled. *)
Lemma pause_play_overlaps :
  ¬ strict_non_overlap (trace (run started [Pause; Play])).
Proof.
  intros H. specialize (H 0 [Started 0] [] eq_refl).
  destruct H as [H|[]]. discriminate H.
Qed.

(** C1 (amended): for every sequence of [play()], [pause()], [stop()]
    calls and settlements in which [play()] is never called on an idle
    engine while an operation is still in flight, iteration [n+1] starts
    only after iteration [n] has settled. *)
Theorem play_waits_non_overlap (ins : list Input) :
  play_waits started ins = true →
  strict_non_overlap (trace (run started ins)).
Proof.
  intros Hg. apply seq_trace, sequential_run; [|done].
  apply sequential_play; [apply sequential_fresh|done].
Qed.

Lemma play_waits_non_overlap_witness :
  play_waits started
    [Resolve 0; Play; Pause; Resolve 1; Play; Resolve 2; Stop;
     Reject 3; Play] = true ∧
  strict_non_overlap
    (trace (run started
       [Resolve 0; Play; Pause; Resolve 1; Play; Resolve 2; Stop;
        Reject 3; Play])).
Proof.
  split; [reflexivity|].
  apply (play_waits_non_overlap
           [Resolve 0; Play; Pause; Resolve 1; Play; Resolve 2; Stop;
            Reject 3; Play]).
  reflexivity.
Defined.

(** C8: after [stop()] or [pause()], whatever happened to the engine
    before, the settlements of its operations (the one in flight and any
    older one, fulfilled or rejected, in any order) start no further
    operation. *)
Theorem stop_starts_nothing (ins : list Input) (l : list (nat * bool)) :
  starts (run started (ins ++ [Stop] ++ map settlement l))
    = starts (run started (ins ++ [Stop])) ∧
  starts (run started (ins ++ [Pause] ++ map settlement l))
    = starts (run started (ins ++ [Pause])).
Proof.
  assert (Hc : all_cancelled (pause (run started ins))).
  { apply all_cancelled_pause, one_live_run, one_live_started. }
  split; rewrite app_assoc, (run_app _ (ins ++ _)), run_app;
    apply all_cancelled_settlements, Hc.
Qed.

(** *** Further properties of the loop engine *)

Lemma play_noop_running s : running s = true → play s = s.
Proof. intros H. unfold play. by rewrite H. Qed.

(** At any time at most one operation of an engine is in flight and not
    cancelled, and it is the current promise of a running engine. *)
Theorem at_most_one_live (ins : list Input) (h1 h2 : nat) :
  live (run started ins) h1 → live (run started ins) h2 →
  h1 = h2 ∧ currentPromise (run started ins) = Some h1 ∧
  running (run started ins) = true.
Proof.
  intros (p1 & Hl1 & Hs1 & Hc1) (p2 & Hl2 & Hs2 & Hc2).
  pose proof (one_live_run ins started one_live_started) as Hj.
  destruct (Hj h1 p1 Hl1 Hs1 Hc1) as [E1 Hr].
  destruct (Hj h2 p2 Hl2 Hs2 Hc2) as [E2 _].
  split; [congruence|done].
Qed.

Lemma at_most_one_live_witness :
  2 = 2 ∧
  currentPromise (run started [Resolve 0; Pause; Play; Reject 1]) = Some 2 ∧
  running (run started [Resolve 0; Pause; Play; Reject 1]) = true.
Proof.
  apply (at_most_one_live [Resolve 0; Pause; Play; Reject 1] 2 2);
    exists (mkPromise false false); repeat split; reflexivity.
Defined.

Lemma halted_step s i :
  all_cancelled s → running s = true → keeps_running i = true →
  all_cancelled (step s i) ∧ running (step s i) = true ∧
  starts (step s i) = starts s.
Proof.
  intros Ha Hr Hk. destruct i; try discriminate Hk; simpl.
  - by rewrite play_noop_running.
  - destruct (all_cancelled_settle h true s Ha). by rewrite settle_running.
  - destruct (all_cancelled_settle h false s Ha). by rewrite settle_running.
Qed.

Lemma halted_run ins : ∀ s,
  all_cancelled s → running s = true → forallb keeps_running ins = true →
  starts (run s ins) = starts s.
Proof.
  induction ins as [|i rest IH]; intros s Ha Hr Hk; [done|].
  simpl in Hk. apply andb_prop in Hk as [Hi Hrest].
  destruct (halted_step s i Ha Hr Hi) as (Ha' & Hr' & <-).
  simpl. by apply IH.
Qed.

(** When the operation in flight rejects, the loop halts and stays
    halted: the engine still counts as running, so neither later
    settlements nor [play()] start another operation. *)
Theorem rejection_halts_loop (pre ins : list Input) (h : nat) :
  live (run started pre) h →
  forallb keeps_running ins = true →
  running (run started (pre ++ Reject h :: ins)) = true ∧
  starts (run started (pre ++ Reject h :: ins)) = starts (run started pre).
Proof.
  intros Hlive Hk.
  pose proof (one_live_run pre started one_live_started) as Hj.
  destruct Hlive as (p & Hl & Hs & Hc).
  destruct (Hj h p Hl Hs Hc) as [Hcur Hrun].
  set (s := run started pre) in *.
  assert (Ha : all_cancelled (settle h false s)).
  { rewrite (settle_unfold h false s p) by done. simpl.
    intros h' p' Hl' Hs'. simpl in Hl'.
    destruct (decide (h = h')) as [->|Hne].
    - rewrite list_lookup_insert_eq in Hl' by (by eapply lookup_lt_Some).
      by simplify_eq.
    - rewrite list_lookup_insert_ne in Hl' by done.
      destruct (_cancel p') eqn:Hc'; [done|].
      destruct (Hj h' p' Hl' Hs' Hc') as [? _]. congruence. }
  assert (Hr : running (settle h false s) = true) by by rewrite settle_running.
  assert (Hst : starts (settle h false s) = starts s).
  { rewrite (settle_unfold h false s p) by done. unfold starts. simpl.
    rewrite List.filter_app. simpl. apply app_nil_r. }
  rewrite run_app. fold s. simpl. split.
  - clear Hst. revert Ha Hr Hk. generalize (settle h false s).
    induction ins as [|i rest IH]; intros s0 Ha Hr Hk; [done|].
    simpl in Hk. apply andb_prop in Hk as [Hi Hrest].
    destruct (halted_step s0 i Ha Hr Hi) as (Ha' & Hr' & _).
    simpl. by apply IH.
  - by rewrite halted_run.
Qed.

Lemma rejection_halts_loop_witness :
  running (run started ([Resolve 0] ++ Reject 1 :: [Play; Resolve 1; Play])) = true ∧
  starts (run started ([Resolve 0] ++ Reject 1 :: [Play; Resolve 1; Play]))
    = starts (run started [Resolve 0]).
Proof.
  apply (rejection_halts_loop [Resolve 0] [Play; Resolve 1; Play] 1).
  - exists (mkPromise false false). repeat split; reflexivity.
  - reflexivity.
Defined.

(** [pause()] followed by [play()] always starts exactly one new
    operation and leaves the engine running, whether or not an earlier
    operation is still in flight. *)
Theorem pause_play_restarts (s : t) :
  running (play (pause s)) = true ∧
  currentPromise (play (pause s)) = Some (length (heap s)) ∧
  starts (play (pause s)) = starts s ++ [Started (length (heap s))].
Proof.
  assert (Hh : length (heap (cancelCurrent s)) = length (heap s)).
  { unfold cancelCurrent. destruct (currentPromise s) as [h|]; [|done].
    destruct (heap s !! h); [|done]. simpl. apply length_insert. }
  assert (Ht : trace (cancelCurrent s) = trace s).
  { unfold cancelCurrent. destruct (currentPromise s) as [h|]; [|done].
    by destruct (heap s !! h). }
  assert (Hp : play (pause s) = next (setRunning true (pause s))).
  { unfold play, pause. by rewrite (setRunning_running false (cancelCurrent s)). }
  rewrite Hp. unfold starts. simpl.
  rewrite setRunning_running, setRunning_heap, setRunning_trace.
  unfold pause. rewrite setRunning_heap, setRunning_trace, Hh, Ht.
  repeat split. by rewrite List.filter_app.
Qed.

Lemma idle_cancelled_settle h f s :
  one_live s → idle_cancelled s → idle_cancelled (settle h f s).
Proof.
  intros Hj Hi.
  destruct (heap s !! h) as [p|] eqn:Hp; [|unfold settle; by rewrite Hp].
  destruct (settled p) eqn:Hsp; [unfold settle; by rewrite Hp, Hsp|].
  rewrite (settle_unfold h f s p) by done. simpl.
  destruct (f && negb (_cancel p)) eqn:Hgo.
  - apply andb_prop in Hgo as [_ Hc]. apply negb_true_iff in Hc.
    destruct (Hj h p Hp Hsp Hc) as [_ Hrun].
    intros Hf. simpl in Hf. congruence.
  - intros Hf h' p' Hcur Hl. simpl in *.
    destruct (decide (h = h')) as [->|Hne].
    + rewrite list_lookup_insert_eq in Hl by (by eapply lookup_lt_Some).
      simplify_eq. simpl. eauto.
    + rewrite list_lookup_insert_ne in Hl by done. eauto.
Qed.

Lemma idle_cancelled_step s i :
  one_live s → idle_cancelled s → idle_cancelled (step s i).
Proof.
  intros Hj Hi. destruct i; simpl.
  - unfold play. destruct (running s) eqn:Hr; simpl; [done|].
    intros Hf. simpl in Hf. by rewrite setRunning_running in Hf.
  - intros _ h p. unfold pause.
    rewrite setRunning_current, setRunning_heap. unfold cancelCurrent.
    destruct (currentPromise s) as [h0|] eqn:Hcur; [|by rewrite Hcur].
    destruct (heap s !! h0) as [p0|] eqn:Hp0; simpl.
    + intros [= <-]. rewrite list_lookup_insert_eq by (by eapply lookup_lt_Some).
      by intros [= <-].
    + rewrite Hcur. intros [= <-]. by rewrite Hp0.
  - intros _ h p. unfold stop, pause.
    rewrite setRunning_current, setRunning_heap. unfold cancelCurrent.
    destruct (currentPromise s) as [h0|] eqn:Hcur; [|by rewrite Hcur].
    destruct (heap s !! h0) as [p0|] eqn:Hp0; simpl.
    + intros [= <-]. rewrite list_lookup_insert_eq by (by eapply lookup_lt_Some).
      by intros [= <-].
    + rewrite Hcur. intros [= <-]. by rewrite Hp0.
  - apply idle_cancelled_settle; done.
  - apply idle_cancelled_settle; done.
Qed.

Lemma idle_cancelled_run ins : ∀ s,
  one_live s → idle_cancelled s → idle_cancelled (run s ins).
Proof.
  induction ins as [|i rest IH]; intros s Hj Hi; [done|].
  simpl. apply IH; [by apply one_live_step|by apply idle_cancelled_step].
Qed.

(** On an engine in any state it can reach, a redundant call changes
    nothing: [play()] while running, [pause()] (or [stop()]) while
    idle. *)
Theorem redundant_call_is_noop (ins : list Input) :
  (if running (run started ins)
   then play (run started ins)
   else pause (run started ins)) = run started ins.
Proof.
  assert (Hi : idle_cancelled (run started ins)).
  { apply idle_cancelled_run; [apply one_live_started|].
    intros Hf. discriminate Hf. }
  destruct (running (run started ins)) eqn:Hr.
  - by apply play_noop_running.
  - specialize (Hi Hr). unfold pause.
    assert (Hc : cancelCurrent (run started ins) = run started ins).
    { unfold cancelCurrent.
      destruct (currentPromise (run started ins)) as [h|] eqn:Hcur; [|done].
      destruct (heap (run started ins) !! h) as [p|] eqn:Hp; [|done].
      specialize (Hi h p eq_refl Hp).
      rewrite list_insert_id; [by destruct (run started ins); simplify_eq/=|].
      rewrite Hp. destruct p. simpl in *. by subst. }
    rewrite Hc. unfold setRunning. by rewrite Hr.
Qed.

(** A loop left alone re-arms after every fulfilment: when its first [n]
    operations have been fulfilled, it has started operation [n], each
    operation after the settlement of the one before. *)
Theorem free_running_loop (n : nat) :
  run started (map Resolve (seq 0 n))
  = mk true (Some n)
       (replicate n (mkPromise false true) ++ [mkPromise false false])
       (free_run_trace n).
Proof.
  induction n as [|n IH]; [done|].
  rewrite seq_S, map_app, run_app, IH. simpl.
  assert (Hl : (replicate n (mkPromise false true) ++ [mkPromise false false]) !! n
               = Some (mkPromise false false)).
  { rewrite lookup_app_r by (rewrite length_replicate; lia).
    by rewrite length_replicate, Nat.sub_diag. }
  unfold settle. simpl. rewrite Hl. simpl. unfold next. simpl.
  assert (Hins : <[n := mkPromise false true]>
                   (replicate n (mkPromise false true) ++ [mkPromise false false])
                 = replicate (S n) (mkPromise false true)).
  { rewrite insert_app_r_alt by (rewrite length_replicate; lia).
    rewrite length_replicate, Nat.sub_diag.
    symmetry. apply (replicate_S_end n). }
  rewrite Hins. f_equal.
  - by rewrite length_replicate.
  - unfold free_run_trace. rewrite length_replicate, seq_S, flat_map_app. simpl.
    by rewrite <- !app_assoc.
Qed.

End PromiseEngineFacts.

(** ** The load engine *)

Section LoadNetworkEngineFacts.

Import LoadNetworkEngine.

(** The runtime the program runs on. *)
Context (rt : Runtime).

Local Abbreviation repeat0 := (LoadNetworkEngine.repeat0 rt).
Local Abbreviation getLoadEngine := (LoadNetworkEngine.getLoadEngine rt).
Local Abbreviation construct := (LoadNetworkEngine.construct rt).

(** [getLoadEngine] throws nothing but the error of a too long url. *)
Lemma getLoadEngine_cases la url qs m b :
  getLoadEngine la url qs m b = inl (RangeError "Invalid string length") ∨
  ∃ req, getLoadEngine la url qs m b = inr (mkEngine req PromiseEngine.started).
Proof.
  unfold LoadNetworkEngine.getLoadEngine.
  destruct (_ <? _)%Z; [by left|right]. simpl. eauto.
Qed.

Lemma getLoadEngine_fits la url qs m b :
  (Z.of_nat (String.length (requestUrl url qs)) ≤ maxStringLength rt)%Z →
  getLoadEngine la url qs m b
  = inr (mkEngine
           (mkRequest (truthy_string la) (requestUrl url qs) m b
              (if truthy_string la then la else None))
           PromiseEngine.started).
Proof.
  intros Hfit. unfold LoadNetworkEngine.getLoadEngine.
  destruct (_ <? _)%Z eqn:Hlt; [apply Z.ltb_lt in Hlt; lia|done].
Qed.

Lemma getLoadEngine_not_config la url qs m b :
  is_config_error (getLoadEngine la url qs m b) = false.
Proof.
  destruct (getLoadEngine_cases la url qs m b) as [->|[req ->]]; done.
Qed.

Lemma repeat0_fits n :
  (0 ≤ n ≤ maxStringLength rt)%Z →
  repeat0 n = inr (String.concat "" (replicate (Z.to_nat n) "0")).
Proof.
  intros Hn. unfold LoadNetworkEngine.repeat0.
  destruct (n <? 0)%Z eqn:Hlt; [apply Z.ltb_lt in Hlt; lia|].
  destruct (_ <? n)%Z eqn:Hmax; [apply Z.ltb_lt in Hmax; lia|done].
Qed.

Lemma repeat0_negative n :
  (n < 0)%Z →
  repeat0 n = inl (RangeError ("Invalid count value: " +:+ numberToString rt n)).
Proof.
  intros Hn. unfold LoadNetworkEngine.repeat0.
  destruct (n <? 0)%Z eqn:Hlt; [done|]. apply Z.ltb_ge in Hlt. lia.
Qed.

Lemma repeat0_not_config n : is_config_error (repeat0 n) = false.
Proof.
  unfold LoadNetworkEngine.repeat0.
  destruct (n <? 0)%Z; [done|]. by destruct (_ <? n)%Z.
Qed.

Lemma check_present c type : check c type = None ↔ present c.
Proof.
  unfold check, present.
  destruct (truthy_string (apiUrl c)), (truthy_number (chunkSize c)); simpl;
    split; (done || by intros []).
Qed.

Lemma well_formed_present c : well_formed c → present c.
Proof.
  intros [Hu (n & Hn & Hpos)]. split; [done|].
  rewrite Hn. simpl. apply negb_true_iff, Z.eqb_neq. lia.
Qed.

Lemma check_error c type e : check c type = Some e → ∃ m, e = Error m.
Proof.
  unfold check.
  destruct (truthy_string (apiUrl c)), (truthy_number (chunkSize c)); simpl;
    intros [= <-]; eauto.
Qed.

(** After the checks have passed, only building a string can throw: the
    url of a channel or the body of the upload channel. *)
Lemma construct_checked cfg :
  supplied cfg ≠ [] → Forall present (supplied cfg) →
  construct cfg =
    match
      match download cfg with
      | Some d =>
          match getLoadEngine (localAddress cfg) (apiUrl d)
                  [("bytes", template_number rt (chunkSize d))] None None with
          | inl e => inl e
          | inr ch => inr [ch]
          end
      | None => inr []
      end
    with
    | inl e => inl e
    | inr engines =>
        match upload cfg with
        | Some u =>
            match repeat0 (default 0%Z (chunkSize u)) with
            | inl e => inl e
            | inr filler =>
                match getLoadEngine (localAddress cfg) (apiUrl u) []
                        (Some "POST") (Some filler) with
                | inl e => inl e
                | inr ch => inr (engines ++ [ch])
                end
            end
        | None => inr engines
        end
    end.
Proof.
  destruct cfg as [[d|] [u|] la]; unfold supplied, LoadNetworkEngine.construct;
    cbn [download upload localAddress option_list app bool_decide];
    intros Hne Hall; try done.
  - apply Forall_cons in Hall as [Hd Hall].
    apply Forall_cons in Hall as [Hu _].
    apply (check_present _ "download") in Hd.
    apply (check_present _ "upload") in Hu.
    cbn [checkAll]. rewrite Hd, Hu. done.
  - apply Forall_cons in Hall as [Hd _].
    apply (check_present _ "download") in Hd.
    cbn [checkAll]. rewrite Hd. done.
  - apply Forall_cons in Hall as [Hu _].
    apply (check_present _ "upload") in Hu.
    cbn [checkAll]. rewrite Hu. done.
Qed.

(** After the checks have passed, no configuration error is thrown. *)
Lemma construct_checked_not_config cfg :
  supplied cfg ≠ [] → Forall present (supplied cfg) →
  is_config_error (construct cfg) = false.
Proof.
  intros Hne Hall. rewrite construct_checked by done.
  assert (Hd : ∃ r, match download cfg with
      | Some d =>
          match getLoadEngine (localAddress cfg) (apiUrl d)
                  [("bytes", template_number rt (chunkSize d))] None None with
          | inl e => inl e
          | inr ch => inr [ch]
          end
      | None => inr []
      end = r ∧ (r = inl (RangeError "Invalid string length") ∨ ∃ l, r = inr l)).
  { eexists. split; [done|].
    destruct (download cfg) as [d|]; [|eauto].
    destruct (getLoadEngine_cases (localAddress cfg) (apiUrl d)
                [("bytes", template_number rt (chunkSize d))] None None)
      as [->|[req ->]]; eauto. }
  destruct Hd as (r & -> & [->|[l ->]]); [done|].
  destruct (upload cfg) as [u|]; [|done].
  pose proof (repeat0_not_config (default 0%Z (chunkSize u))) as Hr.
  destruct (LoadNetworkEngine.repeat0 _ _) as [e|filler]; [done|].
  destruct (getLoadEngine_cases (localAddress cfg) (apiUrl u) []
              (Some "POST") (Some filler)) as [->|[req ->]]; done.
Qed.

(** A valid configuration whose strings fit the runtime constructs one
    started engine for every supplied configuration. *)
Lemma construct_fits cfg :
  valid cfg → fits rt cfg →
  ∃ engines,
    construct cfg = inr engines ∧
    length engines = length (supplied cfg) ∧
    Forall (λ ch, engine ch = PromiseEngine.started) engines.
Proof.
  intros [Hne Hwf] [Hfd Hfu].
  rewrite construct_checked;
    [|done|by eapply Forall_impl; [|apply well_formed_present]].
  unfold supplied in *.
  destruct (download cfg) as [d|] eqn:Hd.
  - rewrite getLoadEngine_fits by by apply Hfd.
    destruct (upload cfg) as [u|] eqn:Hu.
    + assert (Hin : well_formed u).
      { rewrite Forall_forall in Hwf. apply Hwf, elem_of_app. right. by left. }
      destruct Hin as [_ (n & Hn & Hpos)].
      destruct (Hfu u eq_refl) as [Hcount Hurl]. rewrite Hn in *.
      change (default 0%Z (Some n)) with n in *.
      rewrite repeat0_fits by lia. rewrite getLoadEngine_fits by done.
      eexists. split; [done|]. split; [done|]. by repeat constructor.
    + eexists. split; [done|]. split; [done|]. by repeat constructor.
  - destruct (upload cfg) as [u|] eqn:Hu; [|done].
    assert (Hin : well_formed u).
    { rewrite Forall_forall in Hwf. apply Hwf. by left. }
    destruct Hin as [_ (n & Hn & Hpos)].
    destruct (Hfu u eq_refl) as [Hcount Hurl]. rewrite Hn in *.
    change (default 0%Z (Some n)) with n in *.
    rewrite repeat0_fits by lia. rewrite getLoadEngine_fits by done.
    eexists. split; [done|]. split; [done|]. by repeat constructor.
Qed.

(** C4 (amended): the constructor throws a configuration error exactly
    when neither configuration is supplied or a supplied one has an empty
    or missing [apiUrl] or a missing or zero [chunkSize]; and every
    configuration with non-empty [apiUrl]s and positive [chunkSize]s
    whose urls and upload body are within the longest string of the
    runtime constructs without throwing. *)
Theorem construct_checks_presence (cfg : Config) :
  (is_config_error (construct cfg) = true ↔
     supplied cfg = [] ∨ Exists (λ c, ¬ present c) (supplied cfg)) ∧
  (valid cfg → fits rt cfg → throws (construct cfg) = false).
Proof.
  split.
  - destruct (decide (supplied cfg = [])) as [Hnil|Hne].
    { split; [auto|intros _].
      destruct cfg as [[d|] [u|] la]; done. }
    destruct (decide (Forall present (supplied cfg))) as [Hall|Hex].
    + rewrite construct_checked_not_config by done. split; [done|].
      intros [?|Hex]; [done|].
      apply Exists_exists in Hex as (c & Hin & Hc).
      rewrite Forall_forall in Hall. destruct (Hc (Hall c Hin)).
    + split; [intros _; right|intros _].
      { apply Exists_Forall_neg; [|done].
        intros c. destruct (decide (present c)); auto. }
      destruct cfg as [[d|] [u|] la];
        unfold supplied, LoadNetworkEngine.construct in *;
        cbn [download upload localAddress option_list app bool_decide checkAll] in *.
      * destruct (check d "download") as [e|] eqn:Hd.
        { apply check_error in Hd as [m ->]. done. }
        destruct (check u "upload") as [e|] eqn:Hu.
        { apply check_error in Hu as [m ->]. done. }
        exfalso. apply Hex.
        repeat constructor; by eapply check_present.
      * destruct (check d "download") as [e|] eqn:Hd.
        { apply check_error in Hd as [m ->]. done. }
        exfalso. apply Hex. repeat constructor; by eapply check_present.
      * destruct (check u "upload") as [e|] eqn:Hu.
        { apply check_error in Hu as [m ->]. done. }
        exfalso. apply Hex. repeat constructor; by eapply check_present.
      * done.
  - intros Hvalid Hfits.
    destruct (construct_fits cfg Hvalid Hfits) as (engines & -> & _). done.
Qed.




(** *** Further properties of the load engine *)

Lemma filler_S n :
  String.concat "" (replicate (S n) "0")
  = String "0" (String.concat "" (replicate n "0")).
Proof. by destruct n. Qed.

Lemma filler_length n :
  String.length (String.concat "" (replicate n "0")) = n.
Proof.
  induction n as [|n IH]; [done|].
  rewrite filler_S. simpl String.length. by rewrite IH.
Qed.

Lemma filler_zeros n :
  Forall (λ c, c = "0"%char)
    (String.list_ascii_of_string (String.concat "" (replicate n "0"))).
Proof.
  induction n as [|n IH]; [constructor|].
  rewrite filler_S. by constructor.
Qed.

(** The requests of the channels, when the strings fit the runtime: the
    download channel requests [<apiUrl>?bytes=<chunkSize>], the number
    printed as the runtime prints it, with no method and no body; the
    upload channel posts to [<apiUrl>?] a body of [chunkSize] characters
    ['0']; both go through [nodeFetch], bound to [localAddress], exactly
    when a non-empty [localAddress] is configured. *)
Theorem channel_requests (la : option string) (du uu : string) (dn un : Z) :
  du ≠ "" → uu ≠ "" → (dn ≠ 0)%Z → (0 < un ≤ maxStringLength rt)%Z →
  (Z.of_nat (String.length (du +:+ "?bytes=" +:+ numberToString rt dn))
   ≤ maxStringLength rt)%Z →
  (Z.of_nat (String.length (uu +:+ "?")) ≤ maxStringLength rt)%Z →
  ∃ filler,
    construct (mkConfig (Some (mkChannel (Some du) (Some dn)))
                        (Some (mkChannel (Some uu) (Some un))) la)
    = inr [mkEngine
             (mkRequest (truthy_string la)
                (du +:+ "?bytes=" +:+ numberToString rt dn)
                None None (if truthy_string la then la else None))
             PromiseEngine.started;
           mkEngine
             (mkRequest (truthy_string la) (uu +:+ "?")
                (Some "POST") (Some filler)
                (if truthy_string la then la else None))
             PromiseEngine.started] ∧
    String.length filler = Z.to_nat un ∧
    Forall (λ c, c = "0"%char) (String.list_ascii_of_string filler).
Proof.
  intros Hdu Huu Hdn Hun Hdl Hul.
  exists (String.concat "" (replicate (Z.to_nat un) "0")).
  split; [|split; [apply filler_length|apply filler_zeros]].
  rewrite construct_checked.
  - cbn [download upload localAddress apiUrl chunkSize default].
    rewrite getLoadEngine_fits by exact Hdl.
    change (LoadNetworkEngine.repeat0 rt _) with (LoadNetworkEngine.repeat0 rt un).
    rewrite repeat0_fits by lia.
    rewrite getLoadEngine_fits by exact Hul. done.
  - done.
  - repeat constructor; simpl;
      rewrite ?(proj2 (String.eqb_neq _ _) Hdu), ?(proj2 (String.eqb_neq _ _) Huu);
      try done; apply negb_true_iff, Z.eqb_neq; lia.
Qed.

(** A negative [chunkSize] of the upload configuration is not caught by
    the checks: when the download channel, if any, is built, the
    constructor throws the [RangeError] of ['0'.repeat], not a
    configuration error. *)
Theorem negative_upload_throws_RangeError (cfg : Config) (u : ChannelConfig) (n : Z) :
  Forall present (supplied cfg) → upload cfg = Some u →
  chunkSize u = Some n → (n < 0)%Z →
  (∀ d, download cfg = Some d →
        (Z.of_nat (String.length
           (requestUrl (apiUrl d) [("bytes", template_number rt (chunkSize d))]))
         ≤ maxStringLength rt)%Z) →
  construct cfg = inl (RangeError ("Invalid count value: " +:+ numberToString rt n)).
Proof.
  intros Hall Hu Hn Hneg Hfd.
  rewrite construct_checked; [|unfold supplied; rewrite Hu; by destruct (download cfg)|done].
  rewrite Hu, Hn. change (default 0%Z (Some n)) with n.
  rewrite repeat0_negative by done.
  destruct (download cfg) as [d|]; [|done].
  by rewrite getLoadEngine_fits by by apply Hfd.
Qed.

(** The order of the checks: the download configuration before the
    upload configuration, and [apiUrl] before [chunkSize]; the first
    failing check decides the message. *)
Theorem first_failing_check_decides (cfg : Config) :
  (∀ d, download cfg = Some d → truthy_string (apiUrl d) = false →
        construct cfg = inl (Error "Missing download apiUrl argument")) ∧
  (∀ d, download cfg = Some d → truthy_string (apiUrl d) = true →
        truthy_number (chunkSize d) = false →
        construct cfg = inl (Error "Missing download chunkSize argument")) ∧
  (∀ u, Forall present (option_list (download cfg)) → upload cfg = Some u →
        truthy_string (apiUrl u) = false →
        construct cfg = inl (Error "Missing upload apiUrl argument")) ∧
  (∀ u, Forall present (option_list (download cfg)) → upload cfg = Some u →
        truthy_string (apiUrl u) = true → truthy_number (chunkSize u) = false →
        construct cfg = inl (Error "Missing upload chunkSize argument")) ∧
  (download cfg = None → upload cfg = None →
   construct cfg = inl (Error "Missing at least one of download/upload config")).
Proof.
  destruct cfg as [d0 u0 la]. unfold LoadNetworkEngine.construct.
  cbn [download upload localAddress].
  repeat split.
  - intros d -> Hd. destruct u0; simpl; unfold check; by rewrite Hd.
  - intros d -> Hd Hc. destruct u0; simpl; unfold check; by rewrite Hd, Hc.
  - intros u Hall -> Hu. destruct d0 as [d|]; simpl.
    + apply Forall_cons in Hall as [Hd _].
      apply (check_present _ "download") in Hd. rewrite Hd.
      unfold check. by rewrite Hu.
    + unfold check. by rewrite Hu.
  - intros u Hall -> Hu Hc. destruct d0 as [d|]; simpl.
    + apply Forall_cons in Hall as [Hd _].
      apply (check_present _ "download") in Hd. rewrite Hd.
      unfold check. by rewrite Hu, Hc.
    + unfold check. by rewrite Hu, Hc.
  - by intros -> ->.
Qed.

End LoadNetworkEngineFacts.

(** The requests of the two channels, and the engines they run in. *)
Example download_and_upload_requests :
  LoadNetworkEngine.construct runtime0
    (LoadNetworkEngine.mkConfig
       (Some (LoadNetworkEngine.mkChannel (Some "https://x/test") (Some 1000%Z)))
       (Some (LoadNetworkEngine.mkChannel (Some "https://x/test") (Some 16%Z))) None)
  = inr [LoadNetworkEngine.mkEngine
           (LoadNetworkEngine.mkRequest false "https://x/test?bytes=1000" None None None)
           PromiseEngine.started;
         LoadNetworkEngine.mkEngine
           (LoadNetworkEngine.mkRequest false "https://x/test?" (Some "POST")
              (Some "0000000000000000") None)
           PromiseEngine.started].
Proof. reflexivity. Qed.

(** A negative [chunkSize] of the upload configuration passes the checks
    and makes ['0'.repeat] throw. *)
Example negative_upload_chunkSize :
  LoadNetworkEngine.construct runtime0
    (LoadNetworkEngine.mkConfig None
       (Some (LoadNetworkEngine.mkChannel (Some "https://x/test") (Some (-16)%Z))) None)
  = inl (RangeError "Invalid count value: -16").
Proof. reflexivity. Qed.

(** An upload [chunkSize] above the longest string of the runtime passes
    the checks and makes ['0'.repeat] throw. *)
Example oversized_upload_chunkSize :
  LoadNetworkEngine.construct runtime0
    (LoadNetworkEngine.mkConfig None
       (Some (LoadNetworkEngine.mkChannel (Some "https://x/test") (Some 536870889%Z)))
       None)
  = inl (RangeError "Invalid string length").
Proof. reflexivity. Qed.

(** C4 as stated does not hold, on any runtime: a download configuration
    with a negative [chunkSize] is not [valid], and the constructor
    accepts it. *)
Lemma negative_chunkSize_accepted :
  ¬ ∃ rt : Runtime,
      LoadNetworkEngine.rejects_exactly_invalid rt
        (LoadNetworkEngine.mkConfig
           (Some (LoadNetworkEngine.mkChannel (Some "https://x/test") (Some (-1)%Z)))
           None None).
Proof.
  intros [rt [_ H]].
  assert (Hinv : ¬ LoadNetworkEngine.valid
    (LoadNetworkEngine.mkConfig
       (Some (LoadNetworkEngine.mkChannel (Some "https://x/test") (Some (-1)%Z)))
       None None)).
  { intros [_ Hwf]. simpl in Hwf.
    apply Forall_cons in Hwf as [[_ (n & [= <-] & Hpos)] _]. lia. }
  apply H in Hinv.
  rewrite construct_checked_not_config in Hinv; [done|done|].
  by repeat constructor.
Qed.

Lemma channel_requests_witness :
  ∃ filler,
    LoadNetworkEngine.construct runtime0
      (LoadNetworkEngine.mkConfig
         (Some (LoadNetworkEngine.mkChannel (Some "https://x/dl") (Some 1000%Z)))
         (Some (LoadNetworkEngine.mkChannel (Some "https://x/ul") (Some 16%Z)))
         (Some "10.0.0.1"))
    = inr [LoadNetworkEngine.mkEngine
             (LoadNetworkEngine.mkRequest true
                ("https://x/dl" +:+ "?bytes=" +:+ numberToString runtime0 1000%Z)
                None None (Some "10.0.0.1"))
             PromiseEngine.started;
           LoadNetworkEngine.mkEngine
             (LoadNetworkEngine.mkRequest true ("https://x/ul" +:+ "?")
                (Some "POST") (Some filler) (Some "10.0.0.1"))
             PromiseEngine.started] ∧
    String.length filler = 16 ∧
    Forall (λ c, c = "0"%char) (String.list_ascii_of_string filler).
Proof.
  apply (channel_requests runtime0 (Some "10.0.0.1") "https://x/dl" "https://x/ul"
           1000 16);
    first [discriminate | simpl; lia | vm_compute; discriminate].
Defined.

Lemma negative_upload_throws_RangeError_witness :
  LoadNetworkEngine.construct runtime0
    (LoadNetworkEngine.mkConfig None
       (Some (LoadNetworkEngine.mkChannel (Some "https://x/ul") (Some (-16)%Z))) None)
  = inl (RangeError ("Invalid count value: " +:+ numberToString runtime0 (-16)%Z)).
Proof.
  apply (negative_upload_throws_RangeError runtime0 _
           (LoadNetworkEngine.mkChannel (Some "https://x/ul") (Some (-16)%Z)) (-16)).
  - repeat constructor.
  - reflexivity.
  - reflexivity.
  - lia.
  - discriminate.
Defined.

Lemma first_failing_check_decides_witness :
  LoadNetworkEngine.construct runtime0
    (LoadNetworkEngine.mkConfig
       (Some (LoadNetworkEngine.mkChannel (Some "https://x/dl") (Some 0%Z)))
       (Some (LoadNetworkEngine.mkChannel None (Some 16%Z))) None)
  = inl (Error "Missing download chunkSize argument").
Proof.
  apply (first_failing_check_decides runtime0
    (LoadNetworkEngine.mkConfig
       (Some (LoadNetworkEngine.mkChannel (Some "https://x/dl") (Some 0%Z)))
       (Some (LoadNetworkEngine.mkChannel None (Some 16%Z))) None))
    with (d := LoadNetworkEngine.mkChannel (Some "https://x/dl") (Some 0%Z));
    reflexivity.
Defined.

(** A valid configuration whose strings fit [runtime0]. *)
Lemma example_config_valid la :
  LoadNetworkEngine.valid
    (LoadNetworkEngine.mkConfig
       (Some (LoadNetworkEngine.mkChannel (Some "https://x/test") (Some 1000%Z)))
       (Some (LoadNetworkEngine.mkChannel (Some "https://x/test") (Some 16%Z)))
       la).
Proof.
  split; [discriminate|].
  repeat constructor; simpl; eexists; (split; [reflexivity|lia]).
Defined.

Lemma example_config_fits la :
  LoadNetworkEngine.fits runtime0
    (LoadNetworkEngine.mkConfig
       (Some (LoadNetworkEngine.mkChannel (Some "https://x/test") (Some 1000%Z)))
       (Some (LoadNetworkEngine.mkChannel (Some "https://x/test") (Some 16%Z)))
       la).
Proof.
  split.
  - intros d [= <-]. vm_compute. discriminate.
  - intros u [= <-]. split; vm_compute; discriminate.
Defined.

Lemma construct_checks_presence_witness :
  LoadNetworkEngine.throws
    (LoadNetworkEngine.construct runtime0
       (LoadNetworkEngine.mkConfig
          (Some (LoadNetworkEngine.mkChannel (Some "https://x/test") (Some 1000%Z)))
          (Some (LoadNetworkEngine.mkChannel (Some "https://x/test") (Some 16%Z)))
          None)) = false.
Proof.
  exact (proj2 (construct_checks_presence runtime0 _)
           (example_config_valid None) (example_config_fits None)).
Defined.


(** ** The reachability engine *)

Section ReachabilityEngineFacts.

Import ReachabilityEngine.

Context {Response : Type}.
Variable onFinished : Result Response → option JsError.
Variable url : string.

Local Abbreviation finish := (finish onFinished url).
Local Abbreviation step := (step onFinished url).
Local Abbreviation run := (run onFinished url).

Lemma finish_latched a b c (s : t Response) :
  finished s = true → finish a b c s = (s, None).
Proof. intros H. unfold ReachabilityEngine.finish. by rewrite H. Qed.

Lemma finish_first a b c (s : t Response) :
  finished s = false →
  finished (finish a b c s).1 = true ∧
  delivered (finish a b c s).1 = delivered s ++ [mkResult url a b c].
Proof. intros H. unfold ReachabilityEngine.finish. by rewrite H. Qed.

(** Once the latch is set, no callback of the constructor delivers. *)
Lemma step_latched (s : t Response) ev :
  finished s = true →
  finished (step s ev) = true ∧ delivered (step s ev) = delivered s.
Proof.
  intros H. destruct ev; simpl.
  - destruct (request s); [|done].
    rewrite finish_latched by done. done.
  - destruct (request s); [|done].
    rewrite finish_latched by done. done.
  - destruct (timer s); [|done].
    rewrite finish_latched by done. done.
Qed.

Lemma run_latched evs : ∀ s : t Response,
  finished s = true →
  finished (run s evs) = true ∧ delivered (run s evs) = delivered s.
Proof.
  induction evs as [|ev evs IH]; intros s H; [done|].
  simpl. destruct (step_latched s ev H) as [Hf Hd].
  destruct (IH _ Hf) as [? ?]. split; congruence.
Qed.

(** The first callback to run delivers its verdict and sets the latch,
    also when [onFinished] throws. *)
Lemma fulfilled_first (s : t Response) r :
  finished s = false → request s = true →
  finished (step s (Fulfilled r)) = true ∧
  delivered (step s (Fulfilled r)) = delivered s ++ [mkResult url true (Some r) None].
Proof.
  intros Hf Hr. unfold ReachabilityEngine.step, ReachabilityEngine.finish.
  simpl. rewrite Hr, Hf. by destruct (onFinished _).
Qed.

Lemma rejected_first (s : t Response) e :
  finished s = false → request s = true →
  finished (step s (Rejected e)) = true ∧
  delivered (step s (Rejected e)) =
    delivered s ++ [mkResult url false None (Some (Reason e))].
Proof.
  intros Hf Hr. unfold ReachabilityEngine.step, ReachabilityEngine.finish.
  simpl. by rewrite Hr, Hf.
Qed.

Lemma timer_first (s : t Response) :
  finished s = false → timer s = true →
  finished (step s TimerFired) = true ∧
  delivered (step s TimerFired) =
    delivered s ++ [mkResult url false None (Some (Message "Request timeout"))].
Proof.
  intros Hf Hr. unfold ReachabilityEngine.step, ReachabilityEngine.finish.
  simpl. by rewrite Hr, Hf.
Qed.

Lemma armed_iff (o : Options) :
  timer (construct (Response := Response) url o) = true ↔
  ∃ t, timeout o = Some t ∧ (0 < t)%Z.
Proof.
  simpl. destruct (timeout o) as [t|]; simpl.
  - rewrite Z.ltb_lt. split; [eauto|]. by intros (? & [= <-] & ?).
  - split; [done|]. by intros (? & ? & ?).
Qed.

(** From the constructed state: nothing is delivered until a source
    settles, and exactly one result is delivered from then on. *)
Lemma delivered_count (o : Options) (evs : list (Event Response)) : ∀ s : t Response,
  finished s = false → delivered s = [] → request s = true →
  timer s = (0 <? default (-1) (timeout o))%Z →
  length (delivered (run s evs)) = if existsb (settles o) evs then 1 else 0.
Proof.
  induction evs as [|ev evs IH]; intros s Hf Hd Hr Ht.
  { simpl. by rewrite Hd. }
  simpl. destruct (settles o ev) eqn:Hev; simpl.
  - assert (Hstep : finished (step s ev) = true ∧
                    length (delivered (step s ev)) = 1).
    { destruct ev.
      + destruct (fulfilled_first s r Hf Hr) as [? ->]. by rewrite Hd.
      + destruct (rejected_first s e Hf Hr) as [? ->]. by rewrite Hd.
      + simpl in Hev. rewrite <- Ht in Hev.
        destruct (timer_first s Hf Hev) as [? ->]. by rewrite Hd. }
    destruct Hstep as [Hf' Hl'].
    destruct (run_latched evs _ Hf') as [_ ->]. done.
  - destruct ev; try discriminate Hev.
    simpl in Hev. rewrite <- Ht in Hev.
    simpl. rewrite Hev. by apply IH.
Qed.

(** [onFinished] is never called twice. *)
Lemma onFinished_at_most_once (o : Options) (evs : list (Event Response)) :
  (length (delivered (run (construct url o) evs)) ≤ 1)%nat.
Proof.
  rewrite (delivered_count o) by done.
  destruct (existsb (settles o) evs); lia.
Qed.

(** C2: whenever at least one of the two sources settles (the request,
    or the timer when one is armed), [onFinished] has been called exactly
    once, however many callbacks run afterwards and in whatever order,
    and whether or not [onFinished] throws. *)
Theorem onFinished_exactly_once (o : Options) (evs : list (Event Response)) :
  existsb (settles o) evs = true →
  length (delivered (run (construct url o) evs)) = 1.
Proof.
  intros He. rewrite (delivered_count o) by done. by rewrite He.
Qed.

(** A request that is rejected first decides the verdict: unreachable,
    with the rejection reason as error. *)
Lemma rejected_first_verdict (o : Options) (e : JsError)
    (rest : list (Event Response)) :
  delivered (run (construct url o) (Rejected e :: rest))
  = [mkResult url false None (Some (Reason e))].
Proof.
  change (run (construct url o) (Rejected e :: rest))
    with (run (step (construct url o) (Rejected e)) rest).
  destruct (rejected_first (construct url o) e eq_refl eq_refl) as [Hf Hd].
  destruct (run_latched rest _ Hf) as [_ ->]. by rewrite Hd.
Qed.

(** The verdict is that of the callback that runs first: the response
    when the request is fulfilled first, the rejection reason of the
    request promise when it is rejected first, the string of the timer
    when an armed timer fires first; and a timer is armed exactly when a
    positive [timeout] is given. *)
Theorem verdict_of_first_settlement (o : Options) (rest : list (Event Response)) :
  (∀ r, delivered (run (construct url o) (Fulfilled r :: rest))
        = [mkResult url true (Some r) None]) ∧
  (∀ e, delivered (run (construct url o) (Rejected e :: rest))
        = [mkResult url false None (Some (Reason e))]) ∧
  (∀ t, timeout o = Some t → (0 < t)%Z →
        delivered (run (construct url o) (TimerFired :: rest))
        = [mkResult url false None (Some (Message "Request timeout"))]) ∧
  (timer (construct (Response := Response) url o) = true ↔
   ∃ t, timeout o = Some t ∧ (0 < t)%Z).
Proof.
  split; [|split; [|split]].
  - intros r.
    change (run (construct url o) (Fulfilled r :: rest))
      with (run (step (construct url o) (Fulfilled r)) rest).
    destruct (fulfilled_first (construct url o) r eq_refl eq_refl) as [Hf Hd].
    destruct (run_latched rest _ Hf) as [_ ->]. by rewrite Hd.
  - intros e.
    change (run (construct url o) (Rejected e :: rest))
      with (run (step (construct url o) (Rejected e)) rest).
    destruct (rejected_first (construct url o) e eq_refl eq_refl) as [Hf Hd].
    destruct (run_latched rest _ Hf) as [_ ->]. by rewrite Hd.
  - intros t Ht Hpos.
    assert (Harmed : timer (construct (Response := Response) url o) = true).
    { apply armed_iff. eauto. }
    change (run (construct url o) (TimerFired :: rest))
      with (run (step (construct url o) TimerFired) rest).
    destruct (timer_first (construct url o) eq_refl Harmed) as [Hf Hd].
    destruct (run_latched rest _ Hf) as [_ ->]. by rewrite Hd.
  - apply armed_iff.
Qed.

(** *** Further properties of the reachability engine *)

(** What [onFinished] does (return or throw) has no influence on the
    engine: the state after any callbacks, and so the verdict, is the
    same for every callback. *)
Theorem callback_cannot_change_verdict
    (other : Result Response → option JsError)
    (s : t Response) (evs : list (Event Response)) :
  run s evs = ReachabilityEngine.run other url s evs.
Proof.
  revert s. induction evs as [|ev evs IH]; intros s; [done|].
  simpl. rewrite IH. f_equal.
  destruct ev; simpl; try done.
  - destruct (request s); [|done].
    unfold ReachabilityEngine.finish. simpl.
    destruct (finished s); [done|]. simpl.
    by destruct (onFinished _), (other _).
  - destruct (request s); [|done].
    unfold ReachabilityEngine.finish. simpl. by destruct (finished s).
  - destruct (timer s); [|done].
    unfold ReachabilityEngine.finish. simpl. by destruct (finished s).
Qed.

Lemma step_coherent (s : t Response) ev :
  Forall (coherent url) (delivered s) →
  Forall (coherent url) (delivered (step s ev)).
Proof.
  intros Hc. destruct (finished s) eqn:Hf.
  { by destruct (step_latched s ev Hf) as [_ ->]. }
  destruct ev; simpl.
  - destruct (request s) eqn:Hr; [|done].
    destruct (fulfilled_first s r Hf Hr) as [_ Hd]. simpl in Hd.
    rewrite Hr in Hd. rewrite Hd.
    apply Forall_app. split; [done|]. repeat constructor. by eexists.
  - destruct (request s) eqn:Hr; [|done].
    destruct (rejected_first s e Hf Hr) as [_ Hd]. simpl in Hd.
    rewrite Hr in Hd. rewrite Hd.
    apply Forall_app. split; [done|]. repeat constructor. by eexists.
  - destruct (timer s) eqn:Ht; [|done].
    destruct (timer_first s Hf Ht) as [_ Hd]. simpl in Hd.
    rewrite Ht in Hd. rewrite Hd.
    apply Forall_app. split; [done|]. repeat constructor. by eexists.
Qed.

(** Every result handed to [onFinished] names the target url of the
    engine and is either reachable with a response and no error, or
    unreachable with an error and no response. *)
Theorem delivered_results_coherent (o : Options) (evs : list (Event Response)) :
  Forall (coherent url) (delivered (run (construct url o) evs)).
Proof.
  assert (Hgen : ∀ s : t Response,
    Forall (coherent url) (delivered s) →
    Forall (coherent url) (delivered (run s evs))).
  { induction evs as [|ev evs IH]; intros s Hs; [done|].
    simpl. by apply IH, step_coherent. }
  apply Hgen. constructor.
Qed.

(** Without a positive [timeout] no timer is armed: timer callbacks
    cannot occur, and no verdict is the timeout message. *)
Theorem no_timeout_no_timer (o : Options) (evs : list (Event Response)) :
  (default (-1) (timeout o) ≤ 0)%Z →
  run (construct url o) evs
    = run (construct url o) (List.filter (λ ev, negb (is_timer ev)) evs) ∧
  ∀ r, In r (delivered (run (construct url o) evs)) →
       error r ≠ Some (Message "Request timeout").
Proof.
  intros Hle.
  assert (Hoff : timer (construct (Response := Response) url o) = false).
  { simpl. apply Z.ltb_ge. lia. }
  assert (Hgen : ∀ s : t Response,
    timer s = false →
    (∀ r, In r (delivered s) → error r ≠ Some (Message "Request timeout")) →
    run s evs = run s (List.filter (λ ev, negb (is_timer ev)) evs) ∧
    ∀ r, In r (delivered (run s evs)) →
         error r ≠ Some (Message "Request timeout")).
  { induction evs as [|ev evs IH]; intros s Ht Hs; [done|].
    destruct ev; simpl.
    - apply IH.
      + simpl. destruct (request s); [|done].
        unfold ReachabilityEngine.finish. simpl.
        destruct (finished s); [done|]. simpl.
        by destruct (onFinished _).
      + intros r0. simpl. destruct (request s); [|apply Hs].
        unfold ReachabilityEngine.finish. simpl.
        destruct (finished s); [apply Hs|]. simpl.
        destruct (onFinished _); simpl; intros Hin;
          apply in_app_or in Hin as [Hin|[<-|[]]]; auto.
    - apply IH.
      + simpl. destruct (request s); [|done].
        unfold ReachabilityEngine.finish. simpl. by destruct (finished s).
      + intros r0. simpl. destruct (request s); [|apply Hs].
        unfold ReachabilityEngine.finish. simpl.
        destruct (finished s); [apply Hs|]. simpl. intros Hin.
        apply in_app_or in Hin as [Hin|[<-|[]]]; auto.
    - rewrite Ht. by apply IH. }
  apply Hgen; [done|]. intros r [].
Qed.

End ReachabilityEngineFacts.

Lemma no_timeout_no_timer_witness :
  ReachabilityEngine.run (λ _, None) "https://x/test"
    (ReachabilityEngine.construct "https://x/test"
       (ReachabilityEngine.mkOptions (Some 0%Z) None))
    [ReachabilityEngine.TimerFired; ReachabilityEngine.Rejected (Error "down")]
  = ReachabilityEngine.run (λ _, None) "https://x/test"
      (ReachabilityEngine.construct (Response := Z) "https://x/test"
         (ReachabilityEngine.mkOptions (Some 0%Z) None))
      [ReachabilityEngine.Rejected (Error "down")].
Proof.
  apply (no_timeout_no_timer (λ _, None) "https://x/test"
           (ReachabilityEngine.mkOptions (Some 0%Z) None)
           [ReachabilityEngine.TimerFired;
            ReachabilityEngine.Rejected (Error "down")]).
  simpl. lia.
Defined.

Lemma onFinished_exactly_once_witness :
  existsb (ReachabilityEngine.settles (ReachabilityEngine.mkOptions (Some 50%Z) None))
    [ReachabilityEngine.TimerFired; ReachabilityEngine.Fulfilled 200%Z;
     ReachabilityEngine.TimerFired] = true ∧
  length (ReachabilityEngine.delivered
            (ReachabilityEngine.run (λ _, Some (Error "callback failed"))
               "https://x/test"
               (ReachabilityEngine.construct "https://x/test"
                  (ReachabilityEngine.mkOptions (Some 50%Z) None))
               [ReachabilityEngine.TimerFired; ReachabilityEngine.Fulfilled 200%Z;
                ReachabilityEngine.TimerFired])) = 1.
Proof.
  split; [reflexivity|].
  apply onFinished_exactly_once. reflexivity.
Defined.

Lemma verdict_of_first_settlement_witness :
  ReachabilityEngine.delivered
    (ReachabilityEngine.run (λ _, None) "https://x/test"
       (ReachabilityEngine.construct "https://x/test"
          (ReachabilityEngine.mkOptions (Some 50%Z) None))
       [ReachabilityEngine.TimerFired; ReachabilityEngine.Fulfilled 200%Z])
  = [ReachabilityEngine.mkResult "https://x/test" false None
       (Some (ReachabilityEngine.Message "Request timeout"))].
Proof.
  apply (verdict_of_first_settlement (λ _, None) "https://x/test"
           (ReachabilityEngine.mkOptions (Some 50%Z) None)
           [ReachabilityEngine.Fulfilled 200%Z]) with (t := 50%Z).
  - reflexivity.
  - lia.
Defined.

(** ** The phased probe *)

Section NodeRequestFacts.

Import NodeRequest.

(** A reading of the clock is not earlier than the previous one. *)
Lemma now_spec c :
  ∃ t c', now c = (inr t, c') ∧ (time c ≤ t)%Z ∧ time c' = t.
Proof.
  unfold now. destruct (ticks c) as [|d ds]; eauto 6 with lia.
Qed.

(** Run the next reading of the clock in the goal. *)
Ltac tick :=
  match goal with
  | |- context [now ?c] =>
      let t := fresh "t" in
      let c' := fresh "c" in
      let E := fresh "E" in
      let L := fresh "L" in
      let T := fresh "T" in
      destruct (now_spec c) as (t & c' & E & L & T);
      rewrite E; cbn beta iota
  end.

Ltac unfold_probe :=
  unfold nodeFetch, exchangePhase, connectPhase, measureTCPConnect,
    try_catch, await, bind, ret, throw;
  cbn [lookup connect exchange].

(** The [catch] block of [nodeFetch] throws: [console] resolves,
    [reject] does not. *)
Lemma catchBlock_throws {A} e c :
  catchBlock (A := A) e c = (inl (ReferenceError "reject is not defined"), c).
Proof. reflexivity. Qed.

(** C3: when the lookup fails, or the probe connection fails, the
    promise of [nodeFetch] is rejected with the [ReferenceError] of the
    [catch] block, where [reject] is not in scope, and not with the
    failure of the transport. *)
Theorem failure_rejects_with_ReferenceError
    (url : string) (o : Options) (e : JsError) (co : option JsError)
    (ex : JsError + IncomingMessage * list Chunk) (c : Clock) :
  (nodeFetch url o (mkTransport (Some e) co ex) c).1
    = inl (ReferenceError "reject is not defined") ∧
  (nodeFetch url o (mkTransport None (Some e) ex) c).1
    = inl (ReferenceError "reject is not defined").
Proof.
  split; unfold_probe; repeat tick; by rewrite catchBlock_throws.
Qed.

(** The two halves, for use below. *)
Lemma lookup_failure_rejects url o e co ex c :
  (nodeFetch url o (mkTransport (Some e) co ex) c).1
  = inl (ReferenceError "reject is not defined").
Proof. unfold_probe. repeat tick. by rewrite catchBlock_throws. Qed.

Lemma connect_failure_rejects url o e ex c :
  (nodeFetch url o (mkTransport None (Some e) ex) c).1
  = inl (ReferenceError "reject is not defined").
Proof. unfold_probe. repeat tick. by rewrite catchBlock_throws. Qed.

(** An ['error'] event of the request, in contrast, rejects the promise
    with the error of the transport: there [reject] is the parameter of
    the executor. *)
Lemma request_error_rejects_with_error url o e c :
  (nodeFetch url o (mkTransport None None (inl e)) c).1 = inl e.
Proof. unfold_probe. by repeat tick. Qed.

(** *** A successful exchange *)

Lemma onData_spec o st0 lo st chunk c :
  receiving o st0 lo st c → (lo ≤ time c)%Z →
  ∃ st' c',
    onData o st0 st chunk c = (inr st', c') ∧ (time c ≤ time c')%Z ∧
    receiving o st0 lo st' c' ∧ is_Some (rFirstByteTime st').
Proof.
  intros [Hb Hl] Hlo. unfold onData, bind, ret.
  destruct (unset (rFirstByteTime st)) eqn:Hu.
  - tick. do 2 eexists. split; [done|]. simpl.
    split; [lia|]. split; [|by eexists]. split; simpl.
    + intros g [= <-]. lia.
    + rewrite Hl. by destruct (bool_decide (method o = Some "GET")).
  - do 2 eexists. split; [done|]. simpl. split; [lia|].
    split; [done|].
    destruct (rFirstByteTime st); [eauto|done].
Qed.

Lemma onChunks_spec o st0 lo chunks : ∀ st c,
  receiving o st0 lo st c → (lo ≤ time c)%Z →
  ∃ st' c',
    onChunks o st0 st chunks c = (inr st', c') ∧ (time c ≤ time c')%Z ∧
    receiving o st0 lo st' c' ∧
    (chunks ≠ [] → is_Some (rFirstByteTime st')) ∧
    (chunks = [] → st' = st).
Proof.
  induction chunks as [|chunk rest IH]; intros st c Hr Hlo.
  - exists st, c. simpl. unfold ret.
    split; [done|]. split; [lia|]. split; [done|]. done.
  - destruct (onData_spec o st0 lo st chunk c Hr Hlo)
      as (st1 & c1 & E1 & L1 & R1 & S1).
    destruct (IH st1 c1 R1 ltac:(lia)) as (st2 & c2 & E2 & L2 & R2 & S2 & N2).
    exists st2, c2. simpl. unfold bind. rewrite E1, E2.
    split; [done|]. split; [lia|]. split; [done|]. split; [|done].
    intros _. destruct rest as [|x rest']; [by rewrite N2|by apply S2].
Qed.

(** A call whose lookup, connection and exchange succeed is fulfilled
    with a response whose [timings] are as [phases] says. *)
Lemma nodeFetch_phases url o res chunks c :
  ∃ r c',
    nodeFetch url o (mkTransport None None (inr (res, chunks))) c = (inr (Some r), c') ∧
    phases o res chunks (timings r).
Proof.
  unfold_probe. do 7 tick.
  set (tcp_end := (t3 + (t5 - t4))%Z).
  assert (Hend : (t3 ≤ tcp_end ∧ tcp_end ≤ time c6)%Z) by (subst tcp_end; lia).
  clearbody tcp_end.
  destruct (encrypted res) eqn:Henc; [tick|]; cbn beta iota;
    match goal with
    | |- context [onChunks o ?st0 ?init chunks ?ck] =>
        destruct (onChunks_spec o st0 (time ck) chunks init ck)
          as (rcv & c8 & E8 & L8 & [Hb Hdl] & Hs & Hn);
          [split; [done|]; simpl; by destruct (bool_decide _)|lia|];
          rewrite E8; cbn beta iota; tick;
          do 2 eexists; (split; [done|]);
          exists t1, t2, t3, tcp_end, (time ck); eexists
    end; simpl; rewrite ?Henc; simpl;
    repeat match goal with |- _ ∧ _ => split end;
    try done; try lia; try congruence;
    try (intros g Hg; destruct (Hb g Hg); lia);
    try (intros ->; by rewrite (Hn eq_refl)).
  by rewrite T6.
Qed.

(** With an encrypted socket and a body of at least one chunk, every
    phase timestamp is set and they are in order. *)
Lemma timings_ordered url o res chunk chunks c :
  encrypted res = true →
  ∃ r c',
    nodeFetch url o (mkTransport None None (inr (res, chunk :: chunks))) c
      = (inr (Some r), c') ∧
    ordered (timings r).
Proof.
  intros Henc.
  destruct (nodeFetch_phases url o res (chunk :: chunks) c)
    as (r & c' & E & a & b & cc & d & tls & h & Ha & Hb & Hc & Hd & He & Hh &
        Hord & Htls & _ & Hfb & Hsome & _).
  exists r, c'. split; [done|].
  destruct (Hsome ltac:(done)) as [g Hg].
  rewrite Henc in Htls.
  exists a, b, cc, d, d, tls, g, h.
  destruct (Hfb g Hg). repeat split; try done; lia.
Qed.

(** C7: a successful exchange whose response body is empty leaves
    [firstByteTime] unset (it is assigned only in the ['data'] listener),
    so the record is not the ordered chain of timestamps the claim
    describes. *)
Theorem empty_body_leaves_firstByteTime_unset
    (url : string) (o : Options) (res : IncomingMessage) (c : Clock) :
  ∃ r c',
    nodeFetch url o (mkTransport None None (inr (res, []))) c = (inr (Some r), c') ∧
    firstByteTime (timings r) = None ∧
    ¬ ordered (timings r).
Proof.
  destruct (nodeFetch_phases url o res [] c)
    as (r & c' & E & a & b & cc & d & tls & h & _ & _ & _ & _ & _ & _ &
        _ & _ & _ & _ & _ & Hnone & _).
  exists r, c'. split; [done|]. split; [by apply Hnone|].
  intros (? & ? & ? & ? & ? & ? & g & ? & _ & _ & _ & _ & _ & _ & Hg & _).
  rewrite (Hnone eq_refl) in Hg. done.
Qed.

(** The latencies that are recorded: [latency] of the performance entry
    is [firstByteTime - startTime]; with [method: 'POST'] on an encrypted
    socket [uploadLatency] is [tlsHandshakeEnd - startTime]; with
    [method: 'GET'] given, [downloadLatency] is
    [firstByteTime - startTime]. *)
Lemma latencies_recorded url o res chunks c :
  ∃ r c',
    nodeFetch url o (mkTransport None None (inr (res, chunks))) c = (inr (Some r), c') ∧
    latency (perfEntryOf url res r)
      = minus (firstByteTime (timings r)) (Some (startTime (timings r))) ∧
    (method o = Some "POST" → encrypted res = true →
     is_Some (tlsHandshakeEnd (timings r)) ∧
     uploadLatency (timings r)
       = minus (tlsHandshakeEnd (timings r)) (Some (startTime (timings r)))) ∧
    (method o = Some "GET" →
     downloadLatency (timings r)
       = minus (firstByteTime (timings r)) (Some (startTime (timings r)))).
Proof.
  destruct (nodeFetch_phases url o res chunks c)
    as (r & c' & E & a & b & cc & d & tls & h & _ & _ & _ & _ & _ & _ &
        _ & Htls & Hul & _ & _ & _ & Hdl).
  exists r, c'. split; [done|]. split; [done|]. split.
  - intros Hm Henc. rewrite Hul, Htls, Henc, Hm. simpl. eauto.
  - intros Hm. rewrite Hdl, Hm. simpl.
    by destruct (firstByteTime (timings r)).
Qed.

(** C9: when [options] has no [method], the request is sent as a GET,
    the first byte is timed, and no [downloadLatency] is recorded: the
    ['data'] listener compares [options.method], not the defaulted
    method, with ['GET']. *)
Theorem default_method_records_no_downloadLatency
    (url : string) (la b : option string) (res : IncomingMessage)
    (chunk : Chunk) (chunks : list Chunk) (c : Clock) :
  ∃ r c',
    nodeFetch url (mkOptions la None b)
      (mkTransport None None (inr (res, chunk :: chunks))) c
      = (inr (Some r), c') ∧
    is_Some (firstByteTime (timings r)) ∧
    downloadLatency (timings r) = None.
Proof.
  destruct (nodeFetch_phases url (mkOptions la None b) res (chunk :: chunks) c)
    as (r & c' & E & a & b' & cc & d & tls & h & _ & _ & _ & _ & _ & _ &
        _ & _ & _ & _ & Hsome & _ & Hdl).
  exists r, c'. split; [done|]. split; [by apply Hsome|done].
Qed.

(** *** The transfer size *)




(** *** Further properties of the probe *)








(** The promise of [nodeFetch] is never fulfilled with [undefined], and
    whenever it is fulfilled, the lookup, the probe connection and the
    exchange have all succeeded. *)
Theorem outcomes_of_nodeFetch (url : string) (o : Options) (tr : Transport)
    (c : Clock) :
  (nodeFetch url o tr c).1 ≠ inr None ∧
  (∀ r, (nodeFetch url o tr c).1 = inr (Some r) →
        lookup tr = None ∧ connect tr = None ∧ ∃ rc, exchange tr = inr rc).
Proof.
  destruct tr as [[e1|] co ex].
  { by rewrite lookup_failure_rejects. }
  destruct co as [e2|].
  { by rewrite connect_failure_rejects. }
  destruct ex as [e3|[res chunks]].
  { assert (H : (nodeFetch url o (mkTransport None None (inl e3)) c).1 = inl e3).
    { unfold_probe. by repeat tick. }
    by rewrite H. }
  destruct (nodeFetch_phases url o res chunks c) as (r & c' & E & _).
  rewrite E. simpl. split; [done|]. intros _ _. eauto.
Qed.

(** The two stand-alone probes: [measureDNS] and [measureTCPConnect]
    reject with the error of the lookup or of the socket itself, and
    otherwise yield an elapsed time that is not negative. *)
Theorem probes_measure_or_reject (tr : Transport) (c : Clock) :
  match lookup tr with
  | Some e => (measureDNS tr c).1 = inl e
  | None => ∃ d, (measureDNS tr c).1 = inr d ∧ (0 ≤ d)%Z
  end ∧
  match connect tr with
  | Some e => (measureTCPConnect tr c).1 = inl e
  | None => ∃ d, (measureTCPConnect tr c).1 = inr d ∧ (0 ≤ d)%Z
  end.
Proof.
  split; unfold measureDNS, measureTCPConnect, await, bind, ret, throw.
  - destruct (lookup tr); repeat tick; [done|].
    eexists. split; [done|lia].
  - destruct (connect tr); repeat tick; [done|].
    eexists. split; [done|lia].
Qed.

(** The performance entry of a fulfilled call with a non-empty body is a
    consistent resource timing: request and fetch start at [startTime],
    the lookup, the connection and the response follow in order, the
    secure connection starts where the connection ends, and
    [0 ≤ latency ≤ duration] with [latency = responseStart - requestStart]
    and [duration = responseEnd - startTime]; the two body sizes are the
    length of the body. *)
Theorem entry_is_consistent (url : string) (o : Options) (res : IncomingMessage)
    (chunk : Chunk) (chunks : list Chunk) (c : Clock) :
  ∃ r c' a b cn d g h,
    nodeFetch url o (mkTransport None None (inr (res, chunk :: chunks))) c
      = (inr (Some r), c') ∧
    requestStart (perfEntryOf url res r) = entryStartTime (perfEntryOf url res r) ∧
    fetchStart (perfEntryOf url res r) = entryStartTime (perfEntryOf url res r) ∧
    domainLookupStart (perfEntryOf url res r) = Some a ∧
    domainLookupEnd (perfEntryOf url res r) = Some b ∧
    connectStart (perfEntryOf url res r) = Some cn ∧
    connectEnd (perfEntryOf url res r) = Some d ∧
    secureConnectionStart (perfEntryOf url res r) = Some d ∧
    responseStart (perfEntryOf url res r) = Some g ∧
    responseEnd (perfEntryOf url res r) = Some h ∧
    (entryStartTime (perfEntryOf url res r) ≤ a ∧ a ≤ b ∧ b ≤ cn ∧ cn ≤ d ∧
     d ≤ g ∧ g ≤ h)%Z ∧
    latency (perfEntryOf url res r)
      = Some (g - entryStartTime (perfEntryOf url res r))%Z ∧
    duration (perfEntryOf url res r)
      = Some (h - entryStartTime (perfEntryOf url res r))%Z ∧
    encodedBodySize (perfEntryOf url res r)
      = Z.of_nat (String.length (responseBody r)) ∧
    decodedBodySize (perfEntryOf url res r)
      = Z.of_nat (String.length (responseBody r)).
Proof.
  destruct (nodeFetch_phases url o res (chunk :: chunks) c)
    as (r & c' & E & a & b & cn & d & tls & h & Ha & Hb & Hc & Hd & He & Hh &
        Hord & _ & _ & Hfb & Hsome & _).
  destruct (Hsome ltac:(done)) as [g Hg].
  destruct (Hfb g Hg).
  exists r, c', a, b, cn, d, g, h. simpl.
  rewrite Ha, Hb, Hc, Hd, He, Hh, Hg. simpl.
  repeat split; try done; lia.
Qed.

(** At most one of the two latencies is recorded: [uploadLatency] only
    for [method: 'POST'], [downloadLatency] only for [method: 'GET'], in
    exactly this spelling. *)
Theorem latency_needs_its_method (url : string) (o : Options)
    (res : IncomingMessage) (chunks : list Chunk) (c : Clock) :
  ∃ r c',
    nodeFetch url o (mkTransport None None (inr (res, chunks))) c
      = (inr (Some r), c') ∧
    (uploadLatency (timings r) = None ∨ method o = Some "POST") ∧
    (downloadLatency (timings r) = None ∨ method o = Some "GET") ∧
    (uploadLatency (timings r) = None ∨ downloadLatency (timings r) = None).
Proof.
  destruct (nodeFetch_phases url o res chunks c)
    as (r & c' & E & a & b & cn & d & tls & h & _ & _ & _ & _ & _ & _ &
        _ & _ & Hul & _ & _ & _ & Hdl).
  exists r, c'. split; [done|]. rewrite Hul, Hdl.
  destruct (method o) as [m|] eqn:Hm.
  - destruct (decide (m = "POST")) as [->|Hp].
    + split; [by right|]. split; [by left|by right].
    + rewrite (bool_decide_eq_false_2 (Some m = Some "POST")) by congruence.
      rewrite andb_false_r. split; [by left|].
      split; [|by left].
      destruct (decide (m = "GET")) as [->|Hg]; [by right|].
      rewrite (bool_decide_eq_false_2 (Some m = Some "GET")) by congruence.
      by left.
  - rewrite andb_false_r. simpl. auto.
Qed.

(** *** Numbers in headers *)

Lemma digit_nonneg radix c v : digit radix c = Some v → (0 ≤ v)%Z.
Proof.
  unfold digit.
  destruct ((48 <=? code c) && (code c <=? 57))%Z eqn:E1.
  { destruct (_ <? radix)%Z; [|done]. intros [= <-]. lia. }
  destruct ((97 <=? code c) && (code c <=? 122))%Z eqn:E2.
  { destruct (_ <? radix)%Z; [|done]. intros [= <-]. lia. }
  destruct ((65 <=? code c) && (code c <=? 90))%Z eqn:E3; [|done].
  destruct (_ <? radix)%Z; [|done]. intros [= <-]. lia.
Qed.

Lemma leading_digits_nonneg radix s : Forall (λ d, 0 ≤ d)%Z (leading_digits radix s).
Proof.
  induction s as [|c s IH]; simpl; [constructor|].
  destruct (digit radix c) as [v|] eqn:E; constructor; [|done].
  by eapply digit_nonneg.
Qed.

Lemma number_nonneg radix ds :
  (0 ≤ radix)%Z → Forall (λ d, 0 ≤ d)%Z ds → (0 ≤ number radix ds)%Z.
Proof.
  intros Hr. unfold number.
  assert (Hgen : ∀ acc, (0 ≤ acc)%Z → Forall (λ d, 0 ≤ d)%Z ds →
    (0 ≤ foldl (λ acc d, acc * radix + d) acc ds)%Z).
  { induction ds as [|d ds IH]; intros acc Hacc Hall; [done|].
    apply Forall_cons in Hall as [Hd Hall]. simpl. apply IH; [nia|done]. }
  by apply Hgen.
Qed.

Lemma decimal_run_digits s : digits_only (decimal_run s) = true.
Proof.
  induction s as [|c s IH]; [done|]. simpl.
  destruct (digit 10 c) eqn:E; [|done]. simpl. by rewrite E.
Qed.

(** A non-empty string of decimal digits parses as its decimal value. *)
Lemma parseInt_digits d :
  d ≠ "" → digits_only d = true →
  parseInt d = Some (1 * number 10 (leading_digits 10 d))%Z.
Proof.
  destruct d as [|c rest]; [done|]. intros _ H. simpl in H.
  destruct c as [[] [] [] [] [] [] [] []]; try discriminate H;
    try reflexivity.
  destruct rest as [|c2 rest2]; [reflexivity|]. simpl in H.
  destruct c2 as [[] [] [] [] [] [] [] []]; try discriminate H; reflexivity.
Qed.

Lemma match_sent_bytes_unfold c st :
  match_sent_bytes (String c st)
  = match strip_prefix "sent_bytes=" (String c st) with
    | Some after =>
        match decimal_run after with
        | EmptyString => match_sent_bytes st
        | ds => Some ds
        end
    | None => match_sent_bytes st
    end.
Proof. reflexivity. Qed.

Lemma parseInt_sent_bytes st digits :
  match_sent_bytes st = Some digits → ∃ k, parseInt digits = Some k ∧ (0 ≤ k)%Z.
Proof.
  induction st as [|c st IH]; [done|]. rewrite match_sent_bytes_unfold.
  assert (Hrun : ∀ after, decimal_run after = digits → digits ≠ "" →
    ∃ k, parseInt digits = Some k ∧ (0 ≤ k)%Z).
  { intros after <- Hne. eexists. split.
    - apply parseInt_digits; [done|apply decimal_run_digits].
    - pose proof (number_nonneg 10 (leading_digits 10 (decimal_run after))
                    ltac:(lia) (leading_digits_nonneg _ _)). lia. }
  destruct (strip_prefix "sent_bytes=" (String c st)) as [after|]; [|exact IH].
  destruct (decimal_run after) as [|x run] eqn:E; [exact IH|].
  intros [= <-]. by apply (Hrun after).
Qed.

(** [transferSize] is a number unless a [Content-Length] header is
    present and does not start with a number: the chunked and plain
    branches and the [Server-Timing] replacement never give [NaN]. *)
Theorem transferSize_NaN_only_from_Content_Length
    (hs : gmap string string) (bodySize : Z) :
  computeTransferSize hs bodySize = None →
  ∃ declared, hs !! "content-length" = Some declared ∧ declared ≠ "" ∧
              parseInt declared = None.
Proof.
  unfold computeTransferSize.
  destruct (hs !! "content-length") as [declared|] eqn:Hcl; simpl.
  - destruct (String.eqb declared "") eqn:Hne; simpl.
    + destruct (bool_decide (hs !! "transfer-encoding" = Some "chunked"));
        (destruct (_ && _); [|done]);
        (destruct (match_sent_bytes _) as [digits|] eqn:Hm; [|done]);
        destruct (parseInt_sent_bytes _ _ Hm) as (k & -> & _); done.
    + apply String.eqb_neq in Hne.
      destruct (_ && _).
      * destruct (match_sent_bytes _) as [digits|] eqn:Hm; [|by eauto].
        destruct (parseInt_sent_bytes _ _ Hm) as (k & -> & _); done.
      * by eauto.
  - destruct (bool_decide (hs !! "transfer-encoding" = Some "chunked"));
      (destruct (_ && _); [|done]);
      (destruct (match_sent_bytes _) as [digits|] eqn:Hm; [|done]);
      destruct (parseInt_sent_bytes _ _ Hm) as (k & -> & _); done.
Qed.

End NodeRequestFacts.

Lemma transferSize_NaN_only_from_Content_Length_witness :
  ∃ declared,
    ({[ "content-length" := "abc" ]} : gmap string string) !! "content-length"
      = Some declared ∧
    declared ≠ "" ∧ NodeRequest.parseInt declared = None.
Proof.
  apply (transferSize_NaN_only_from_Content_Length {[ "content-length" := "abc" ]} 5).
  reflexivity.
Defined.


(** ** The response object *)

Section NodeResponseFacts.

Import NodeRequest.

Lemma afterReads_S n res b tm :
  afterReads (S n) (newNodeResponse res b tm)
  = mkResponse (statusCode res) (statusMessage res)
      ((200 <=? statusCode res) && (statusCode res <? 300))%Z b true tm.
Proof. induction n as [|n IH]; [done|]. simpl in *. by rewrite IH. Qed.

(** A response can be read once: of any number of [text()] calls on a
    new response the first yields the body and every later one rejects
    with the [TypeError]. *)
Theorem body_is_read_once (res : IncomingMessage) (b : string) (tm : Timings)
    (n : nat) :
  (text (afterReads n (newNodeResponse res b tm))).1
  = match n with
    | 0 => inr b
    | S _ => inl (TypeError "Body already used")
    end.
Proof. destruct n as [|n]; [done|]. by rewrite afterReads_S. Qed.

(** [json()] reads the body through [text()]: it uses the body up even
    when the parser throws, and rejects on a used body without parsing. *)
Lemma json_uses_the_body {J : Type} (parse : string → JsError + J)
    (r : NodeResponse) :
  (json parse r).1
    = (if bodyUsed r then inl (TypeError "Body already used")
       else parse (responseBody r)) ∧
  bodyUsed (json parse r).2 = true.
Proof.
  unfold json, text. destruct (bodyUsed r) eqn:Hu; simpl; rewrite ?Hu; done.
Qed.

(** [clone()] gives back an unread response, also when the original has
    been read any number of times: the clone of a response is the
    response as it was constructed, and its body can be read. *)
Theorem clone_is_unread (res : IncomingMessage) (b : string) (tm : Timings)
    (n : nat) :
  clone (afterReads n (newNodeResponse res b tm)) = newNodeResponse res b tm ∧
  (text (clone (afterReads n (newNodeResponse res b tm)))).1 = inr b.
Proof. destruct n as [|n]; [done|]. by rewrite afterReads_S. Qed.

(** *** The header map *)

Lemma lower_idem c : lower (lower c) = lower c.
Proof. by destruct c as [[] [] [] [] [] [] [] []]. Qed.

Lemma toLowerCase_idem s : toLowerCase (toLowerCase s) = toLowerCase s.
Proof. induction s as [|c s IH]; [done|]. simpl. by rewrite lower_idem, IH. Qed.

Lemma mapGet_mapSet_eq k v m : mapGet k (mapSet k v m) = Some v.
Proof.
  induction m as [|[k' v'] m IH]; simpl.
  - by rewrite String.eqb_refl.
  - destruct (String.eqb k' k) eqn:E; simpl; by rewrite E.
Qed.

Lemma mapGet_mapSet_ne k k' v m :
  k ≠ k' → mapGet k' (mapSet k v m) = mapGet k' m.
Proof.
  intros Hne. induction m as [|[k0 v0] m IH]; simpl.
  - by rewrite (proj2 (String.eqb_neq _ _) Hne).
  - destruct (String.eqb k0 k) eqn:E; simpl.
    + apply String.eqb_eq in E as ->.
      by rewrite (proj2 (String.eqb_neq _ _) Hne).
    + by rewrite IH.
Qed.

Lemma lastValue_snoc k es kv :
  lastValue k (es ++ [kv])
  = if String.eqb (toLowerCase kv.1) k then Some kv.2 else lastValue k es.
Proof. unfold lastValue. by rewrite foldl_app. Qed.

Lemma headersOf_snoc es kv :
  headersOf (es ++ [kv]) = mapSet (toLowerCase kv.1) kv.2 (headersOf es).
Proof. unfold headersOf. by rewrite foldl_app. Qed.

Lemma headersOf_get k es : mapGet k (headersOf es) = lastValue k es.
Proof.
  induction es as [|kv es IH] using rev_ind; [done|].
  rewrite headersOf_snoc, lastValue_snoc.
  destruct (String.eqb (toLowerCase kv.1) k) eqn:E.
  - apply String.eqb_eq in E as <-. apply mapGet_mapSet_eq.
  - apply String.eqb_neq in E. by rewrite mapGet_mapSet_ne.
Qed.

Lemma lastValue_lowercase k es v : lastValue k es = Some v → toLowerCase k = k.
Proof.
  induction es as [|kv es IH] using rev_ind; [done|].
  rewrite lastValue_snoc.
  destruct (String.eqb (toLowerCase kv.1) k) eqn:E; [|done].
  apply String.eqb_eq in E as <-. intros _. apply toLowerCase_idem.
Qed.

(** The header map is case-insensitive on the names it is built from,
    and the last entry wins: looking up a lower-case name gives the value
    of the last header with that name up to case.  The map itself is
    case-sensitive: a name that is not in lower case finds nothing. *)
Theorem header_lookup (es : list (string * string)) (k : string) :
  mapGet k (headersOf es) = lastValue k es ∧
  (toLowerCase k ≠ k → mapGet k (headersOf es) = None).
Proof.
  split; [apply headersOf_get|].
  intros Hk. rewrite headersOf_get.
  destruct (lastValue k es) as [v|] eqn:E; [|done].
  by apply lastValue_lowercase in E.
Qed.

Lemma mapSet_fresh k v m : k ∉ m.*1 → mapSet k v m = m ++ [(k, v)].
Proof.
  induction m as [|[k' v'] m IH]; [done|]. simpl. intros Hk.
  apply not_elem_of_cons in Hk as [Hne Hk].
  rewrite (proj2 (String.eqb_neq k' k)) by done. by rewrite IH.
Qed.

Lemma mapSet_keys k v m x : x ∈ (mapSet k v m).*1 → x = k ∨ x ∈ m.*1.
Proof.
  induction m as [|[k' v'] m IH]; simpl.
  - intros ?%list_elem_of_singleton. by left.
  - destruct (String.eqb k' k) eqn:E; simpl; [by right|].
    intros [->|Hin]%elem_of_cons; [right; by left|].
    destruct (IH Hin); [by left|right; by right].
Qed.

Lemma mapSet_normalised k v m :
  toLowerCase k = k → normalised m → normalised (mapSet k v m).
Proof.
  intros Hk [Hl Hn]. split.
  - clear Hn. induction m as [|[k' v'] m IH]; simpl.
    + by repeat constructor.
    + apply Forall_cons in Hl as [H1 H2].
      destruct (String.eqb k' k); constructor; auto.
  - clear Hl. induction m as [|[k' v'] m IH]; simpl.
    + apply NoDup_singleton.
    + apply NoDup_cons in Hn as [H1 H2].
      destruct (String.eqb k' k) eqn:E; simpl.
      * by apply NoDup_cons.
      * apply NoDup_cons. split; [|by apply IH].
        intros [->|Hin]%mapSet_keys; [|done].
        by rewrite String.eqb_refl in E.
Qed.

Lemma headersOf_normalised es : normalised (headersOf es).
Proof.
  induction es as [|kv es IH] using rev_ind.
  - split; constructor.
  - rewrite headersOf_snoc. apply mapSet_normalised; [|done].
    apply toLowerCase_idem.
Qed.

Lemma headersOf_fixed m : normalised m → headersOf m = m.
Proof.
  induction m as [|[k v] m IH] using rev_ind; [done|].
  intros [Hl Hn]. rewrite headersOf_snoc. simpl.
  apply Forall_app in Hl as [Hl Hk]. rewrite Forall_singleton in Hk. simpl in Hk.
  rewrite fmap_app in Hn. apply NoDup_app in Hn as (Hn & Hdis & _).
  rewrite Hk. rewrite IH by (by split). apply mapSet_fresh.
  intros Hin. apply (Hdis k Hin). by left.
Qed.

Lemma mapGet_Some_in k v m : mapGet k m = Some v → (k, v) ∈ m.
Proof.
  induction m as [|[k' v'] m IH]; [done|]. simpl.
  destruct (String.eqb k' k) eqn:E.
  - apply String.eqb_eq in E as ->. intros [= ->]. by left.
  - intros H. right. by apply IH.
Qed.

Lemma in_mapGet k v m : NoDup m.*1 → (k, v) ∈ m → mapGet k m = Some v.
Proof.
  induction m as [|[k' v'] m IH]; [by intros _ ?%elem_of_nil|].
  simpl. intros [Hk Hn]%NoDup_cons [[= -> ->]|Hin]%elem_of_cons.
  - by rewrite String.eqb_refl.
  - destruct (String.eqb k' k) eqn:E; [|by apply IH].
    apply String.eqb_eq in E as ->. destruct Hk.
    apply list_elem_of_fmap. by exists (k, v).
Qed.

(** Cloning keeps the header map: built again from its own entries, in
    the order the map has them or in any other order, the map has the
    same names with the same values. *)
Theorem clone_keeps_headers (es es' : list (string * string)) :
  es' ≡ₚ headersOf es →
  headersOf (headersOf es) = headersOf es ∧
  headersOf es' = es' ∧
  ∀ k, mapGet k (headersOf es') = mapGet k (headersOf es).
Proof.
  intros Hp. pose proof (headersOf_normalised es) as [Hl Hn].
  assert (Hnorm' : normalised es').
  { split; [by rewrite Hp|]. by rewrite Hp. }
  split; [by apply headersOf_fixed|].
  split; [by apply headersOf_fixed|].
  intros k. rewrite (headersOf_fixed es') by done.
  apply option_eq. intros v. split; intros H%mapGet_Some_in.
  - apply in_mapGet; [done|]. by rewrite <- Hp.
  - apply in_mapGet; [by destruct Hnorm'|]. by rewrite Hp.
Qed.

End NodeResponseFacts.

Lemma clone_keeps_headers_witness :
  NodeRequest.headersOf
    (NodeRequest.headersOf [("Content-Type", "a/b"); ("X-Id", "7"); ("content-type", "c/d")])
  = NodeRequest.headersOf [("Content-Type", "a/b"); ("X-Id", "7"); ("content-type", "c/d")].
Proof.
  apply (clone_keeps_headers
           [("Content-Type", "a/b"); ("X-Id", "7"); ("content-type", "c/d")]
           [("x-id", "7"); ("content-type", "c/d")]).
  vm_compute. apply perm_swap.
Defined.

Lemma header_lookup_witness :
  NodeRequest.mapGet "Content-Type"
    (NodeRequest.headersOf [("Content-Type", "text/plain"); ("content-type", "a/b")])
  = None.
Proof.
  apply (header_lookup [("Content-Type", "text/plain"); ("content-type", "a/b")]
           "Content-Type").
  discriminate.
Defined.

(** ** The load channels at work *)

Section LoadChannelFacts.

Import PromiseEngine LoadChannel.

Lemma settle_live_rejected s h :
  one_live s → live s h →
  all_cancelled (settle h false s) ∧ running (settle h false s) = true ∧
  starts (settle h false s) = starts s.
Proof.
  intros Hj (p & Hl & Hs & Hc).
  destruct (Hj h p Hl Hs Hc) as [_ Hrun].
  rewrite settle_running, (settle_unfold h false s p) by done. simpl.
  split; [|split; [done|]].
  - intros h' p' Hl' Hs'. simpl in Hl'.
    destruct (decide (h = h')) as [->|Hne].
    + rewrite list_lookup_insert_eq in Hl' by (by eapply lookup_lt_Some).
      by simplify_eq.
    + rewrite list_lookup_insert_ne in Hl' by done.
      destruct (_cancel p') eqn:Hc'; [done|].
      destruct (Hj h' p' Hl' Hs' Hc') as [? _].
      destruct (Hj h p Hl Hs Hc) as [? _]. congruence.
  - unfold starts. simpl. rewrite List.filter_app. simpl. apply app_nil_r.
Qed.

Lemma settle_live_fulfilled s h :
  live s h →
  starts (settle h true s) = starts s ++ [Started (length (heap s))].
Proof.
  intros (p & Hl & Hs & Hc).
  rewrite (settle_unfold h true s p) by done. simpl. rewrite Hc. simpl.
  unfold starts. simpl. rewrite length_insert, !List.filter_app. simpl.
  by rewrite app_nil_r.
Qed.

Lemma fulfils_response res b tm :
  fulfils (FetchFulfilled (NodeRequest.newNodeResponse res b tm))
  = ((200 <=? NodeRequest.statusCode res)
     && (NodeRequest.statusCode res <? 300))%Z.
Proof.
  unfold fulfils, operation. simpl.
  by destruct ((200 <=? _) && (_ <? 300))%Z.
Qed.

(** A request that is rejected, or answered with a status outside 200
    to 299, halts its channel: the operation rejects (with the rejection
    reason, or with an [Error] of the status text), and neither later
    settlements nor [play()] make the channel issue another request. *)
Theorem failed_request_halts_channel
    (ch : LoadNetworkEngine.Channel) (pre ins : list Input) (h : nat)
    (out : FetchOutcome) :
  LoadNetworkEngine.engine ch = run started pre →
  live (LoadNetworkEngine.engine ch) h →
  (∃ e, out = FetchRejected e) ∨
  (∃ res b tm, out = FetchFulfilled (NodeRequest.newNodeResponse res b tm) ∧
               ¬ (200 ≤ NodeRequest.statusCode res < 300)%Z) →
  forallb keeps_running ins = true →
  (∃ e, operation out = inl e ∧
        (∀ res b tm, out = FetchFulfilled (NodeRequest.newNodeResponse res b tm) →
                     e = Error (NodeRequest.statusMessage res))) ∧
  starts (run (LoadNetworkEngine.engine (settleChannel h out ch)) ins)
    = starts (LoadNetworkEngine.engine ch).
Proof.
  intros Hpre Hlive Hout Hk.
  assert (Hop : ∃ e, operation out = inl e ∧
    (∀ res b tm, out = FetchFulfilled (NodeRequest.newNodeResponse res b tm) →
                 e = Error (NodeRequest.statusMessage res))).
  { destruct Hout as [[e ->]|(res & b & tm & -> & Hst)].
    - exists e. split; [done|]. intros ??? [=].
    - exists (Error (NodeRequest.statusMessage res)). split.
      + unfold operation. simpl.
        destruct ((200 <=? _) && (_ <? 300))%Z eqn:E; [|done].
        apply andb_prop in E as [?%Z.leb_le ?%Z.ltb_lt]. lia.
      + intros res' b' tm' H.
        assert (Hst' : NodeRequest.statusText (NodeRequest.newNodeResponse res b tm)
                       = NodeRequest.statusText (NodeRequest.newNodeResponse res' b' tm'))
          by congruence.
        simpl in Hst'. by rewrite Hst'. }
  split; [done|].
  destruct Hop as (e & Hop & _).
  assert (Hf : fulfils out = false) by (unfold fulfils; by rewrite Hop).
  unfold settleChannel, LoadNetworkEngine.on_engine. simpl. rewrite Hf.
  assert (Hj : one_live (LoadNetworkEngine.engine ch)).
  { rewrite Hpre. apply one_live_run, one_live_started. }
  destruct (settle_live_rejected _ h Hj Hlive) as (Ha & Hr & <-).
  by apply halted_run.
Qed.

(** A request answered with a status from 200 to 299 keeps its channel
    going: the operation fulfils with the body, and the channel issues
    its next request on the spot. *)
Theorem ok_response_continues_channel
    (ch : LoadNetworkEngine.Channel) (h : nat)
    (res : NodeRequest.IncomingMessage) (b : string) (tm : NodeRequest.Timings) :
  live (LoadNetworkEngine.engine ch) h →
  (200 ≤ NodeRequest.statusCode res < 300)%Z →
  operation (FetchFulfilled (NodeRequest.newNodeResponse res b tm)) = inr b ∧
  starts (LoadNetworkEngine.engine
            (settleChannel h (FetchFulfilled (NodeRequest.newNodeResponse res b tm)) ch))
    = starts (LoadNetworkEngine.engine ch)
        ++ [Started (length (heap (LoadNetworkEngine.engine ch)))].
Proof.
  intros Hlive [Hlo Hhi].
  assert (Hok : ((200 <=? NodeRequest.statusCode res)
                 && (NodeRequest.statusCode res <? 300))%Z = true).
  { apply andb_true_intro. split; [by apply Z.leb_le|by apply Z.ltb_lt]. }
  split.
  - unfold operation. simpl. by rewrite Hok.
  - unfold settleChannel, LoadNetworkEngine.on_engine. simpl.
    rewrite fulfils_response, Hok. by apply settle_live_fulfilled.
Qed.

(** [pause()] and [stop()] of the load engine reach every channel:
    afterwards no channel is running, the requests are the same, and the
    settlement of the requests in flight starts no request on any
    channel. *)
Theorem load_engine_pause_stops_every_channel
    (engines : list LoadNetworkEngine.Channel) :
  Forall (λ ch, ∃ pre, LoadNetworkEngine.engine ch = run started pre) engines →
  LoadNetworkEngine.stop engines = LoadNetworkEngine.pause engines ∧
  map LoadNetworkEngine.request (LoadNetworkEngine.pause engines)
    = map LoadNetworkEngine.request engines ∧
  Forall (λ ch, running (LoadNetworkEngine.engine ch) = false ∧
                ∀ l : list (nat * bool),
                  starts (run (LoadNetworkEngine.engine ch) (map settlement l))
                  = starts (LoadNetworkEngine.engine ch))
    (LoadNetworkEngine.pause engines).
Proof.
  intros Hreach. split; [done|]. split.
  - unfold LoadNetworkEngine.pause. rewrite map_map. by apply map_ext.
  - unfold LoadNetworkEngine.pause. apply Forall_map.
    eapply Forall_impl; [exact Hreach|].
    intros ch [pre Hpre]. simpl. split.
    + apply setRunning_running.
    + intros l. apply all_cancelled_settlements, all_cancelled_pause.
      rewrite Hpre. apply one_live_run, one_live_started.
Qed.

(** [play()] of the load engine leaves every channel running: a channel
    that was running is untouched, a paused one issues one new
    request. *)
Theorem load_engine_play_runs_every_channel
    (engines : list LoadNetworkEngine.Channel) :
  Forall2 (λ ch ch',
      running (LoadNetworkEngine.engine ch') = true ∧
      LoadNetworkEngine.request ch' = LoadNetworkEngine.request ch ∧
      starts (LoadNetworkEngine.engine ch')
      = if running (LoadNetworkEngine.engine ch)
        then starts (LoadNetworkEngine.engine ch)
        else starts (LoadNetworkEngine.engine ch)
               ++ [Started (length (heap (LoadNetworkEngine.engine ch)))])
    engines (LoadNetworkEngine.play engines).
Proof.
  induction engines as [|ch engines IH]; [constructor|].
  simpl. constructor; [|exact IH].
  unfold LoadNetworkEngine.on_engine. simpl. unfold play.
  destruct (running (LoadNetworkEngine.engine ch)) eqn:Hr; simpl;
    [done|].
  split; [apply setRunning_running|]. split; [done|].
  unfold starts. simpl.
  by rewrite setRunning_trace, setRunning_heap, List.filter_app.
Qed.

End LoadChannelFacts.

Lemma load_engine_pause_stops_every_channel_witness :
  Forall (λ ch, PromiseEngine.running (LoadNetworkEngine.engine ch) = false ∧
                ∀ l : list (nat * bool),
                  PromiseEngine.starts
                    (PromiseEngine.run (LoadNetworkEngine.engine ch)
                       (map PromiseEngine.settlement l))
                  = PromiseEngine.starts (LoadNetworkEngine.engine ch))
    (LoadNetworkEngine.pause
       [LoadNetworkEngine.mkEngine
          (LoadNetworkEngine.mkRequest false "https://x/test?bytes=10" None None None)
          PromiseEngine.started;
        LoadNetworkEngine.mkEngine
          (LoadNetworkEngine.mkRequest false "https://x/test?" (Some "POST")
             (Some "00") None)
          (PromiseEngine.run PromiseEngine.started [PromiseEngine.Resolve 0])]).
Proof.
  apply (load_engine_pause_stops_every_channel
    [LoadNetworkEngine.mkEngine
       (LoadNetworkEngine.mkRequest false "https://x/test?bytes=10" None None None)
       PromiseEngine.started;
     LoadNetworkEngine.mkEngine
       (LoadNetworkEngine.mkRequest false "https://x/test?" (Some "POST")
          (Some "00") None)
       (PromiseEngine.run PromiseEngine.started [PromiseEngine.Resolve 0])]).
  repeat constructor.
  - exists []. reflexivity.
  - exists [PromiseEngine.Resolve 0]. reflexivity.
Defined.

Lemma failed_request_halts_channel_witness :
  PromiseEngine.starts
    (PromiseEngine.run
       (LoadNetworkEngine.engine
          (LoadChannel.settleChannel 1
             (LoadChannel.FetchFulfilled
                (NodeRequest.newNodeResponse
                   (NodeRequest.mkIncoming 503 "Service Unavailable" "1.1" ∅ true)
                   "busy"
                   (NodeRequest.mkTimings 0 None None None None None None None
                      None None None None)))
             (LoadNetworkEngine.mkEngine
                (LoadNetworkEngine.mkRequest false "https://x/test?bytes=10"
                   None None None)
                (PromiseEngine.run PromiseEngine.started [PromiseEngine.Resolve 0]))))
       [PromiseEngine.Play; PromiseEngine.Resolve 1])
  = [PromiseEngine.Started 0; PromiseEngine.Started 1].
Proof.
  apply (failed_request_halts_channel
           (LoadNetworkEngine.mkEngine
              (LoadNetworkEngine.mkRequest false "https://x/test?bytes=10"
                 None None None)
              (PromiseEngine.run PromiseEngine.started [PromiseEngine.Resolve 0]))
           [PromiseEngine.Resolve 0] [PromiseEngine.Play; PromiseEngine.Resolve 1] 1).
  - reflexivity.
  - exists (PromiseEngine.mkPromise false false). repeat split; reflexivity.
  - right. eexists _, _, _. split; [reflexivity|]. simpl. lia.
  - reflexivity.
Defined.

Lemma ok_response_continues_channel_witness :
  PromiseEngine.starts
    (LoadNetworkEngine.engine
       (LoadChannel.settleChannel 0
          (LoadChannel.FetchFulfilled
             (NodeRequest.newNodeResponse
                (NodeRequest.mkIncoming 200 "OK" "1.1" ∅ true) "0000"
                (NodeRequest.mkTimings 0 None None None None None None None
                   None None None None)))
          (LoadNetworkEngine.mkEngine
             (LoadNetworkEngine.mkRequest false "https://x/test?bytes=4"
                None None None)
             PromiseEngine.started)))
  = PromiseEngine.starts PromiseEngine.started ++ [PromiseEngine.Started 1].
Proof.
  apply (ok_response_continues_channel
           (LoadNetworkEngine.mkEngine
              (LoadNetworkEngine.mkRequest false "https://x/test?bytes=4"
                 None None None)
              PromiseEngine.started) 0).
  - exists (PromiseEngine.mkPromise false false). repeat split; reflexivity.
  - simpl. lia.
Defined.

Lemma timings_ordered_witness :
  ∃ r c',
    NodeRequest.nodeFetch "https://x/test?bytes=5"
      (NodeRequest.mkOptions (Some "10.0.0.1") (Some "GET") None)
      (NodeRequest.mkTransport None None
         (inr (NodeRequest.mkIncoming 200 "OK" "1.1" ∅ true,
               [NodeRequest.asciiChunk "abc"; NodeRequest.asciiChunk "de"])))
      (NodeRequest.mkClock 100 [1; 2; 3; 4; 5; 6; 7; 8; 9; 10]%N)
    = (inr (Some r), c') ∧
    NodeRequest.ordered (NodeRequest.timings r).
Proof.
  apply (timings_ordered "https://x/test?bytes=5"
           (NodeRequest.mkOptions (Some "10.0.0.1") (Some "GET") None)
           (NodeRequest.mkIncoming 200 "OK" "1.1" ∅ true)
           (NodeRequest.asciiChunk "abc") [NodeRequest.asciiChunk "de"]).
  reflexivity.
Defined.

(** ** The request of the reachability engine *)

Section ReachabilityRequestFacts.

Import ReachabilityRequest.

(** C5: with a [localAddress], the request of the engine goes through
    [nodeFetch]; when it fails first because the lookup fails, or the
    probe connection fails, with whatever error [e], the one delivered
    verdict is unreachable and its [error] is the [ReferenceError] of the
    [catch] block of [nodeFetch], not the error [e] of the transport,
    whatever callbacks run afterwards. *)
Theorem failed_request_reports_ReferenceError
    (onFinished : ReachabilityEngine.Result Response → option JsError)
    (fetched : JsError + Response) (targetUrl : string)
    (o : ReachabilityEngine.Options) (fetchOptions : NodeRequest.Options)
    (e : JsError) (co : option JsError)
    (ex : JsError + NodeRequest.IncomingMessage * list NodeRequest.Chunk)
    (c : NodeRequest.Clock) (rest : list (ReachabilityEngine.Event Response)) :
  truthy_string (ReachabilityEngine.localAddress o) = true →
  ReachabilityEngine.delivered
    (requestFirst onFinished fetched targetUrl o fetchOptions
       (NodeRequest.mkTransport (Some e) co ex) c rest)
  = [ReachabilityEngine.mkResult targetUrl false None
       (Some (ReachabilityEngine.Reason
                (ReferenceError "reject is not defined")))] ∧
  ReachabilityEngine.delivered
    (requestFirst onFinished fetched targetUrl o fetchOptions
       (NodeRequest.mkTransport None (Some e) ex) c rest)
  = [ReachabilityEngine.mkResult targetUrl false None
       (Some (ReachabilityEngine.Reason
                (ReferenceError "reject is not defined")))].
Proof.
  intros Hla. unfold requestFirst, request. rewrite Hla.
  rewrite lookup_failure_rejects, connect_failure_rejects.
  split; apply rejected_first_verdict.
Qed.

End ReachabilityRequestFacts.

Lemma failed_request_reports_ReferenceError_witness :
  ReachabilityEngine.delivered
    (ReachabilityRequest.requestFirst (λ _, None) (inr None) "https://nowhere.invalid/"
       (ReachabilityEngine.mkOptions (Some 50%Z) (Some "10.0.0.1"))
       (NodeRequest.mkOptions None None None)
       (NodeRequest.mkTransport (Some (SystemError "ENOTFOUND" "getaddrinfo")) None
          (inl (SystemError "ENOTFOUND" "getaddrinfo")))
       (NodeRequest.mkClock 100 [1; 2; 3]%N)
       [ReachabilityEngine.TimerFired])
  = [ReachabilityEngine.mkResult "https://nowhere.invalid/" false None
       (Some (ReachabilityEngine.Reason
                (ReferenceError "reject is not defined")))].
Proof.
  apply (failed_request_reports_ReferenceError (λ _, None) (inr None)
           "https://nowhere.invalid/"
           (ReachabilityEngine.mkOptions (Some 50%Z) (Some "10.0.0.1"))
           (NodeRequest.mkOptions None None None)
           (SystemError "ENOTFOUND" "getaddrinfo") None
           (inl (SystemError "ENOTFOUND" "getaddrinfo"))
           (NodeRequest.mkClock 100 [1; 2; 3]%N)
           [ReachabilityEngine.TimerFired]).
  reflexivity.
Defined.
